(** * zerqu: the entity cache and the rate limiter

    A shallow embedding of [zerqu/models/base.py] (the [CacheQuery]
    methods, the cache-key construction and the mapper event listeners) and
    of [zerqu/libs/ratelimit.py], together with the properties of the
    caching layer that the specification states about them. *)

From stdpp Require Import base option list sorting strings pretty gmap fin_maps fin_sets.
From Stdlib Require Import ZArith Lia.

Open Scope string_scope.
Open Scope list_scope.
Open Scope Z_scope.

(** ** Python values and exceptions *)

(** A mapped object.  The code reads its columns with [getattr] and
    stringifies them; columns hold integers (ids, foreign keys, counters). *)
Record entity := Entity { getattr : string → Z }.

(** What the cache holds and what the methods return: [None], an integer or
    a mapped object. *)
Inductive pyval :=
  | PNone
  | PInt (z : Z)
  | PObj (e : entity).

(** Truth value of a Python object, as tested by [if rv:] and [not x]. *)
Definition truthy (v : pyval) : bool :=
  match v with
  | PNone => false
  | PInt z => negb (z =? 0)
  | PObj _ => true
  end.

(** [x is None] *)
Definition is_none (v : pyval) : bool :=
  match v with PNone => true | _ => false end.

(** The exceptions the modelled code can raise. *)
Inductive exn :=
  | TypeError
  | ValueError
  | KeyError (k : string)
  | RaiseNotImplemented   (* the statement [raise NotImplemented] of get_dict *)
  | StoreUnavailable.     (* the cache backend cannot be reached *)

Inductive result (A : Type) :=
  | Ok (a : A)
  | Raise (e : exn).
Arguments Ok {A} a.
Arguments Raise {A} e.

(** ** State and exceptions

    A call returns a value or raises, and leaves a state either way: what was
    written before an exception stays written. *)
Definition M (S A : Type) : Type := S → result A * S.

Definition ret {S A} (a : A) : M S A := λ s, (Ok a, s).
Definition raise {S A} (e : exn) : M S A := λ s, (Raise e, s).
Definition bind {S A B} (c : M S A) (k : A → M S B) : M S B :=
  λ s, match c s with
       | (Ok a, s') => k a s'
       | (Raise e, s') => (Raise e, s')
       end.

Notation "'let*' x ':=' c 'in' k" := (bind c (λ x, k))
  (at level 10, x name, c at level 100, k at level 200).
Notation "c ;;; k" := (bind c (λ _, k))
  (at level 100, k at level 200, right associativity).

(** [int(x)]: defined on integers, [TypeError] on [None] and on objects. *)
Definition py_int {S} (v : pyval) : M S Z :=
  match v with
  | PInt z => ret z
  | _ => raise TypeError
  end.

(** [d[k]] on a dict: [KeyError] when the key is missing. *)
Definition subscript {S} (d : gmap string pyval) (k : string) : M S pyval :=
  match d !! k with
  | Some v => ret v
  | None => raise (KeyError k)
  end.

(** ** The cache backend

    [cache] is a proxy for whatever backend the application configured
    ([use_cache]); the code only relies on its interface.  Every operation
    takes the time of the call, in whole seconds. *)
Class CacheBackend (C : Type) : Type := {
  cache_get : Z → string → M C pyval;
  cache_get_many : Z → list string → M C (list pyval);
  cache_get_dict : Z → list string → M C (gmap string pyval);
  cache_set : Z → string → pyval → Z → M C unit;
  cache_set_many : Z → gmap string pyval → Z → M C unit;
  cache_inc : Z → string → M C pyval;
  cache_delete_many : list string → M C unit;
}.

(** Modelled from the spec: the CacheStore of section 4.2, a key/value store
    with a time to live per entry; the backend itself is a library and not
    part of the repository.  An entry written at [now] with [ttl] seconds is
    served while the clock is before [now + ttl]; a key that is absent or
    expired reads as [None].  [increment] starts at 0 when the key is absent;
    the spec does not fix the lifetime of an incremented entry: a live entry
    keeps its expiry and a new one gets [default_timeout]. *)
Module TTL.

Abbreviation store := (gmap string (pyval * Z)).

Definition default_timeout : Z := 300.

Definition read (now : Z) (s : store) (k : string) : pyval :=
  match s !! k with
  | Some (v, expiry) => if now <? expiry then v else PNone
  | None => PNone
  end.

Definition get (now : Z) (k : string) : M store pyval :=
  λ s, (Ok (read now s k), s).

Definition get_many (now : Z) (ks : list string) : M store (list pyval) :=
  λ s, (Ok (read now s <$> ks), s).

Definition get_dict (now : Z) (ks : list string)
  : M store (gmap string pyval) :=
  λ s, (Ok (set_to_map (λ k, (k, read now s k)) (list_to_set ks : gset string)), s).

Definition set (now : Z) (k : string) (v : pyval) (ttl : Z) : M store unit :=
  λ s, (Ok tt, <[k := (v, now + ttl)]> s).

Definition set_many (now : Z) (d : gmap string pyval) (ttl : Z)
  : M store unit :=
  λ s, (Ok tt, ((λ v, (v, now + ttl)) <$> d) ∪ s).

Definition inc (now : Z) (k : string) : M store pyval :=
  λ s, match s !! k with
       | Some (PInt z, expiry) =>
           if now <? expiry
           then (Ok (PInt (z + 1)), <[k := (PInt (z + 1), expiry)]> s)
           else (Ok (PInt 1), <[k := (PInt 1, now + default_timeout)]> s)
       | Some (PNone, _) | None =>
           (Ok (PInt 1), <[k := (PInt 1, now + default_timeout)]> s)
       | Some (PObj _, expiry) =>
           if now <? expiry then (Raise TypeError, s)
           else (Ok (PInt 1), <[k := (PInt 1, now + default_timeout)]> s)
       end.

Definition delete_many (ks : list string) : M store unit :=
  λ s, (Ok tt, foldr delete s ks).

#[global] Instance backend : CacheBackend store := {|
  cache_get := get;
  cache_get_many := get_many;
  cache_get_dict := get_dict;
  cache_set := set;
  cache_set_many := set_many;
  cache_inc := inc;
  cache_delete_many := delete_many;
|}.

End TTL.

(** A backend that cannot be reached: every operation fails with
    [StoreUnavailable] (spec, section 4.2). *)
Module Down.

#[global] Instance backend : CacheBackend unit := {|
  cache_get := λ _ _, raise StoreUnavailable;
  cache_get_many := λ _ _, raise StoreUnavailable;
  cache_get_dict := λ _ _, raise StoreUnavailable;
  cache_set := λ _ _ _ _, raise StoreUnavailable;
  cache_set_many := λ _ _ _, raise StoreUnavailable;
  cache_inc := λ _ _, raise StoreUnavailable;
  cache_delete_many := λ _, raise StoreUnavailable;
|}.

End Down.

(** ** zerqu/libs/ratelimit.py *)

Section Ratelimit.
Context {C : Type} `{!CacheBackend C}.

(** [ratelimit(prefix, count, duration)] at clock reading
    [now = int(time.time())].  The comparison [remaining <= 0] is the one
    of Python 3: it is defined between integers only. *)
Definition ratelimit (now : Z) (prefix : string) (count duration : Z)
  : M C (Z * Z) :=
  let count_key := prefix +:+ "$c" in
  let reset_key := prefix +:+ "$r" in
  let* values := cache_get_many now [count_key; reset_key] in
  match values with
  | [remaining; resetting] =>
      if negb (truthy remaining) && negb (truthy resetting) then
        let remaining := count - 1 in
        let expires_at := duration + now in
        cache_set_many now
          (<[count_key := PInt remaining]> {[reset_key := PInt expires_at]})
          duration ;;;
        let expires := duration in
        ret (remaining, expires)
      else
        let* reset_at := py_int resetting in
        let expires := reset_at - now in
        match remaining with
        | PInt stored =>
            if (stored <=? 0) && negb (expires =? 0) then
              ret (stored, expires)
            else
              let remaining := stored - 1 in
              cache_set now count_key (PInt remaining) expires ;;;
              ret (remaining, expires)
        | _ => raise TypeError
        end
  | _ => raise ValueError
  end.

(** Sequential calls, one per clock reading of [times]; each call's outcome
    is recorded with the cache state it leaves. *)
Fixpoint calls (prefix : string) (count duration : Z) (times : list Z) (c : C)
    : list (result (Z * Z) * C) :=
  match times with
  | [] => []
  | now :: rest =>
      let (r, c') := ratelimit now prefix count duration c in
      (r, c') :: calls prefix count duration rest c'
  end.

End Ratelimit.

(** ** zerqu/models/base.py *)

Definition ONE_DAY : Z := 86400.

Definition CACHE_TIMES : gmap string Z :=
  <["get" := ONE_DAY]> (<["count" := ONE_DAY]> (<["ff" := 300]> {["fc" := 300]})).

Definition CACHE_MODEL_PREFIX : string := "db".

(** What the code reads off a mapper: the mapped class with its
    [__tablename__] and optional [__cache_version__] (already formatted by
    [%s]), and the names of the primary key columns. *)
Record mapper := Mapper {
  tablename : string;
  cache_version : option string;
  primary_key : list string;
}.

(** [Base.generate_cache_prefix] *)
Definition generate_cache_prefix (cls : mapper) (name : string) : string :=
  let prefix := CACHE_MODEL_PREFIX +:+ ":" +:+ name +:+ ":" +:+ tablename cls in
  match cache_version cls with
  | Some version => prefix +:+ "|" +:+ version +:+ ":"
  | None => prefix +:+ ":"
  end.

(** [str(i)] on an integer is its decimal numeral, [pretty] in stdpp. *)
Definition str (i : Z) : string := pretty i.

(** [s.lstrip(chars)]: drops the leading characters of [s] that occur in
    [chars]. *)
Fixpoint lstrip (chars s : string) : string :=
  match s with
  | EmptyString => EmptyString
  | String a rest =>
      if bool_decide (a ∈ String.list_ascii_of_string chars)
      then lstrip chars rest else s
  end.

(** [_unique_suffix] and [_unique_key] *)
Definition _unique_suffix (target : entity) (primary_key : list string) : string :=
  String.concat "-" ((λ k, str (getattr target k)) <$> primary_key).

Definition _unique_key (cls : mapper) (target : entity)
    (primary_key : list string) : string :=
  generate_cache_prefix cls "get" +:+ _unique_suffix target primary_key.

(** The key of a filter query: [prefix + '-'.join('%s$%s' % (k, kwargs[k]))],
    the keyword arguments in their iteration order. *)
Definition filter_key (prefix : string) (kwargs : list (string * Z)) : string :=
  prefix +:+ String.concat "-" ((λ kv, kv.1 +:+ "$" +:+ str kv.2) <$> kwargs).

(** The argument of [Query.get]: a scalar, or a list or tuple. *)
Inductive ident :=
  | Scalar (i : Z)
  | Tuple (l : list Z).

Definition get_key (cls : mapper) (i : ident) : string :=
  let suffix :=
    match i with
    | Tuple l => String.concat "-" (str <$> l)
    | Scalar z => str z
    end in
  generate_cache_prefix cls "get" +:+ suffix.

(** *** The backing store

    A query object stands for the rows of one mapped class.  Every query
    that reaches the database is recorded, in order. *)
Inductive query :=
  | QueryGet (i : ident)
  | QueryIn (column : string) (idents : gset Z)
  | QueryFirst (kwargs : list (string * Z))
  | QueryCount (kwargs : list (string * Z)).

Record session (C : Type) := Session {
  cache : C;
  rows : list entity;
  issued : list query;
}.
Arguments Session {C} _ _ _.
Arguments cache {C} _.
Arguments rows {C} _.
Arguments issued {C} _.

Definition matches (kwargs : list (string * Z)) (e : entity) : bool :=
  forallb (λ kv, getattr e kv.1 =? kv.2) kwargs.

Definition has_ident (pk : list string) (i : ident) (e : entity) : bool :=
  match i with
  | Scalar z => bool_decide ((getattr e <$> pk) = [z])
  | Tuple l => bool_decide ((getattr e <$> pk) = l)
  end.

Section CacheQuery.
Context {C : Type} `{!CacheBackend C}.

(** A cache call made from a query method. *)
Definition on_cache {A} (c : M C A) : M (session C) A :=
  λ w, let (r, c') := c (cache w) in (r, Session c' (rows w) (issued w)).

Definition run_query {A} (q : query) (answer : list entity → A)
    : M (session C) A :=
  λ w, (Ok (answer (rows w)), Session (cache w) (rows w) (issued w ++ [q])).

(** [super(CacheQuery, self).get(ident)] *)
Definition query_get (pk : list string) (i : ident) : M (session C) pyval :=
  run_query (QueryGet i)
    (λ table, match filter (λ e, has_ident pk i e) table with
              | e :: _ => PObj e
              | [] => PNone
              end).

(** [self.filter(pk.in_(missed)).all()] *)
Definition query_in (column : string) (idents : gset Z)
    : M (session C) (list entity) :=
  run_query (QueryIn column idents)
    (λ table, filter (λ e, getattr e column ∈ idents) table).

(** [self.filter_by(kwargs).first()] *)
Definition query_first (kwargs : list (string * Z)) : M (session C) pyval :=
  run_query (QueryFirst kwargs)
    (λ table, match filter (λ e, matches kwargs e) table with
              | e :: _ => PObj e
              | [] => PNone
              end).

(** [self.count()] and [self.filter_by(kwargs).count()] *)
Definition query_count (kwargs : list (string * Z)) : M (session C) Z :=
  run_query (QueryCount kwargs)
    (λ table, Z.of_nat (length (filter (λ e, matches kwargs e) table))).

(** [CacheQuery.get] *)
Definition get (now : Z) (m : mapper) (i : ident) : M (session C) pyval :=
  let key := get_key m i in
  let* rv := on_cache (cache_get now key) in
  if truthy rv then ret rv else
  let* rv := query_get (primary_key m) i in
  if is_none rv then ret PNone else
  on_cache (cache_set now key rv (CACHE_TIMES !!! "get")) ;;;
  ret rv.

(** [{i for i in idents if rv[prefix + str(i)] is None}] *)
Fixpoint missed_idents {S} (prefix : string) (rv : gmap string pyval)
    (idents : list Z) : M S (gset Z) :=
  match idents with
  | [] => ret ∅
  | i :: rest =>
      let* v := subscript rv (prefix +:+ str i) in
      let* others := missed_idents prefix rv rest in
      ret (if is_none v then {[i]} ∪ others else others)
  end.

(** [{k.lstrip(prefix): rv[k] for k in rv}].  When two keys are stripped to
    the same string one of the two values is kept; which one depends on the
    iteration order of the dict. *)
Definition strip_keys (prefix : string) (rv : gmap string pyval)
    : gmap string pyval :=
  list_to_map ((λ kv, (lstrip prefix kv.1, kv.2)) <$> map_to_list rv).

(** The loop over the fetched rows: each goes to [to_cache] under its cache
    key and to [rv] under its stringified id. *)
Definition store_missing (prefix pk : string) (missing : list entity)
    (rv : gmap string pyval) : gmap string pyval * gmap string pyval :=
  foldl (λ acc item,
           let ident := str (getattr item pk) in
           (<[prefix +:+ ident := PObj item]> acc.1,
            <[ident := PObj item]> acc.2))
        (∅, rv) missing.

(** [CacheQuery.get_dict] *)
Definition get_dict (now : Z) (m : mapper) (idents : list Z)
    : M (session C) (gmap string pyval) :=
  if bool_decide (idents = []) then ret ∅ else
  match primary_key m with
  | [pk] =>
      let prefix := generate_cache_prefix m "get" in
      let keys : gset string :=
        list_to_set ((λ i, prefix +:+ str i) <$> idents) in
      let* rv := on_cache (cache_get_dict now (elements keys)) in
      let* missed := missed_idents prefix rv idents in
      let rv := strip_keys prefix rv in
      if bool_decide (missed = ∅) then ret rv else
      let* missing := query_in pk missed in
      let (to_cache, rv) := store_missing prefix pk missing rv in
      on_cache (cache_set_many now to_cache (CACHE_TIMES !!! "get")) ;;;
      ret rv
  | _ => raise RaiseNotImplemented
  end.

(** [_itervalues], consumed by [list(...)] *)
Fixpoint _itervalues {S} (data : gmap string pyval) (idents : list Z)
    : M S (list pyval) :=
  match idents with
  | [] => ret []
  | k :: rest =>
      let* item := subscript data (str k) in
      let* items := _itervalues data rest in
      ret (if is_none item then items else item :: items)
  end.

(** [[d[str(k)] for k in idents]] *)
Fixpoint subscript_all {S} (data : gmap string pyval) (idents : list Z)
    : M S (list pyval) :=
  match idents with
  | [] => ret []
  | k :: rest =>
      let* item := subscript data (str k) in
      let* items := subscript_all data rest in
      ret (item :: items)
  end.

(** [CacheQuery.get_many] *)
Definition get_many (now : Z) (m : mapper) (idents : list Z) (clean : bool)
    : M (session C) (list pyval) :=
  let* d := get_dict now m idents in
  if clean then _itervalues d idents else subscript_all d idents.

(** [CacheQuery.filter_first] *)
Definition filter_first (now : Z) (m : mapper) (kwargs : list (string * Z))
    : M (session C) pyval :=
  let prefix := generate_cache_prefix m "ff" in
  let key := filter_key prefix kwargs in
  let* rv := on_cache (cache_get now key) in
  if truthy rv then ret rv else
  let* rv := query_first kwargs in
  if is_none rv then ret PNone else
  on_cache (cache_set now key rv (CACHE_TIMES !!! "ff")) ;;;
  ret rv.

(** [CacheQuery.filter_count] *)
Definition filter_count (now : Z) (m : mapper) (kwargs : list (string * Z))
    : M (session C) pyval :=
  match kwargs with
  | [] =>
      let key := generate_cache_prefix m "count" in
      let* rv := on_cache (cache_get now key) in
      if negb (is_none rv) then ret rv else
      let* rv := query_count [] in
      on_cache (cache_set now key (PInt rv) (CACHE_TIMES !!! "count")) ;;;
      ret (PInt rv)
  | _ =>
      let prefix := generate_cache_prefix m "fc" in
      let key := filter_key prefix kwargs in
      let* rv := on_cache (cache_get now key) in
      if truthy rv then ret rv else
      let* rv := query_count kwargs in
      on_cache (cache_set now key (PInt rv) (CACHE_TIMES !!! "fc")) ;;;
      ret (PInt rv)
  end.

(** The listeners registered by [Base.__declare_last__]. *)
Definition receive_after_insert (now : Z) (m : mapper) (target : entity)
    : M C unit :=
  cache_inc now (generate_cache_prefix m "count") ;;;
  ret tt.

Definition receive_after_update (now : Z) (m : mapper) (target : entity)
    : M C unit :=
  let key := _unique_key m target (primary_key m) in
  cache_set now key (PObj target) (CACHE_TIMES !!! "get").

Definition receive_after_delete (m : mapper) (target : entity) : M C unit :=
  let key := _unique_key m target (primary_key m) in
  cache_delete_many [key; generate_cache_prefix m "count"].

End CacheQuery.

(** ** Notions used to state the properties *)

(** The two keys of a rate-limit window that resets at [reset_at]: both are
    stored until [reset_at], and the counter holds [remaining]. *)
Definition window_state (prefix : string) (reset_at remaining : Z)
    (s : TTL.store) : Prop :=
  s !! (prefix +:+ "$c") = Some (PInt remaining, reset_at)
  ∧ s !! (prefix +:+ "$r") = Some (PInt reset_at, reset_at).

(** A successful call of [ratelimit] in a trace of [calls]. *)
Definition returned (x : Z * Z * TTL.store) : result (Z * Z) * TTL.store :=
  (Ok x.1, x.2).

Definition remaining_of (x : Z * Z * TTL.store) : Z := x.1.1.

Definition reset_entry (prefix : string) (x : Z * Z * TTL.store)
    : option (pyval * Z) :=
  x.2 !! (prefix +:+ "$r").

(** The ids of [idents] whose cache key reads [None] at [now]. *)
Definition missed_in (now : Z) (s : TTL.store) (prefix : string)
    (idents : list Z) : gset Z :=
  list_to_set (filter (λ i, is_none (TTL.read now s (prefix +:+ str i))) idents).

(** What a batch get has for id [i]: the cached value when the key is
    served, otherwise the row of the table with that primary key (the last
    one, were there several), otherwise [None]. *)
Definition resolved (now : Z) (s : TTL.store) (prefix pk : string)
    (table : list entity) (i : Z) : pyval :=
  match TTL.read now s (prefix +:+ str i) with
  | PNone =>
      match last (filter (λ e, getattr e pk = i) table) with
      | Some e => PObj e
      | None => PNone
      end
  | v => v
  end.

(** ** Notions used to state the further properties *)

(** The first character of a decimal numeral: a digit or the minus sign. *)
Definition numeral_head (t : string) : Prop :=
  ∃ a rest, t = String a rest
            ∧ a ∈ String.list_ascii_of_string "-0123456789".

(** ** zerqu/rec/timeline.py *)

(** [if x:] on an optional integer argument ([None] by default). *)
Definition given (x : option Z) : bool :=
  match x with
  | Some z => negb (z =? 0)
  | None => false
  end.

(** [ORDER BY id DESC]: the greater id comes first. *)
Definition newer (a b : Z) : Prop := b ≤ a.

#[global] Instance newer_dec : RelDecision newer.
Proof. intros a b. unfold newer. apply _. Defined.

(** What [get_timeline_topics] returns or raises: the topics with the next
    cursor, the [IndexError] of [topics[-1]] on an empty list, the
    [AttributeError] of [.id] on a cached value that is not a mapped object,
    or the exception of the batch get. *)
Inductive timeline_result :=
  | Page (topics : list pyval) (cursor : Z)
  | IndexError
  | AttributeError
  | Raised (e : exn).

Section Timeline.
Context {C : Type} `{!CacheBackend C}.

(** [Cafe.STATUS_OFFICIAL], [Cafe.STATUS_VERIFIED] and
    [CafeMember.get_user_following_cafe_ids] are declared with the models,
    outside these files. *)
Variables (STATUS_OFFICIAL STATUS_VERIFIED : Z).
Variable get_user_following_cafe_ids : Z → gset Z.

(** [get_user_timeline_cafe_ids]; [cafes] are the rows of [Cafe]. *)
Definition get_user_timeline_cafe_ids (cafes : list entity) (user_id : Z)
    : gset Z :=
  let official : gset Z :=
    list_to_set ((λ c, getattr c "id")
      <$> filter (λ c, getattr c "status" = STATUS_OFFICIAL) cafes) in
  let following := get_user_following_cafe_ids user_id in
  let mine : gset Z :=
    list_to_set ((λ c, getattr c "id")
      <$> filter (λ c, getattr c "user_id" = user_id) cafes) in
  official ∪ following ∪ mine.

(** [get_public_timeline_cafe_ids] *)
Definition get_public_timeline_cafe_ids (cafes : list entity) : gset Z :=
  let statuses := [STATUS_OFFICIAL; STATUS_VERIFIED] in
  list_to_set ((λ c, getattr c "id")
    <$> filter (λ c, getattr c "status" ∈ statuses) cafes).

(** The query of [get_timeline_topics] for the ids of a page: the topics of
    the cafes, below the cursor when one is given, newest first, at most
    [count] of them.  [topics] are the rows of [Topic]. *)
Definition select_topic_ids (cafe_ids : gset Z) (cursor : option Z)
    (count : nat) (topics : list entity) : list Z :=
  let q := filter (λ t, getattr t "cafe_id" ∈ cafe_ids) topics in
  let q :=
    if given cursor
    then filter (λ t, getattr t "id" < default 0 cursor) q
    else q in
  take count (merge_sort newer ((λ t, getattr t "id") <$> q)).

(** [get_timeline_topics(cursor, user_id, count)]; [m] is the mapper of
    [Topic], whose rows the session holds.  The id query runs on
    [db.session] and is not a query of [Topic.cache]: the log records the
    queries of the batch get only. *)
Definition get_timeline_topics (now : Z) (m : mapper) (cafes : list entity)
    (cursor user_id : option Z) (count : nat)
    : session C → timeline_result * session C :=
  λ w,
    let cafe_ids :=
      if given user_id
      then get_user_timeline_cafe_ids cafes (default 0 user_id)
      else get_public_timeline_cafe_ids cafes in
    let topic_ids := select_topic_ids cafe_ids cursor count (rows w) in
    match get_many now m topic_ids true w with
    | (Raise e, w') => (Raised e, w')
    | (Ok topics, w') =>
        if (length topics <? count)%nat then (Page topics 0, w')
        else
          match last topics with
          | None => (IndexError, w')
          | Some (PObj e) => (Page topics (getattr e "id"), w')
          | Some _ => (AttributeError, w')
          end
    end.

End Timeline.

(** Every cached topic is a mapped object stored under the key of its own
    id. *)
Definition coherent (now : Z) (s : TTL.store) (prefix : string) : Prop :=
  ∀ i, match TTL.read now s (prefix +:+ str i) with
       | PNone => True
       | PObj e => getattr e "id" = i
       | PInt _ => False
       end.

(** The ids of the mapped objects of a page. *)
Definition ids_of (topics : list pyval) : list Z :=
  omap (λ v, match v with PObj e => Some (getattr e "id") | _ => None end) topics.

(** ** zerqu/forms.py: [CafeForm.update_cafe] *)

(** The columns of a cafe that the form reads and writes. *)
Record cafe := Cafe {
  cafe_name : string;
  cafe_slug : string;
  cafe_content : string;
  cafe_permission : Z;
  cafe_user_id : Z;
}.

(** [setattr(cafe, k, value)] for the keys the form uses. *)
Definition cafe_setattr (c : cafe) (k value : string) : cafe :=
  if decide (k = "name") then
    Cafe value (cafe_slug c) (cafe_content c) (cafe_permission c) (cafe_user_id c)
  else if decide (k = "slug") then
    Cafe (cafe_name c) value (cafe_content c) (cafe_permission c) (cafe_user_id c)
  else if decide (k = "content") then
    Cafe (cafe_name c) (cafe_slug c) value (cafe_permission c) (cafe_user_id c)
  else c.

(** The cafe object being edited and the rows committed so far. *)
Record cafe_state := CafeState {
  object : cafe;
  committed : list cafe;
}.

Section CafeForm.

(** [Cafe.PERMISSIONS] is declared with the model, outside these files. *)
Variable PERMISSIONS : gmap string Z.

(** The loop [for k in keys]: a value that is missing or empty is skipped. *)
Definition set_fields (data : gmap string string) (keys : list string)
    (c : cafe) : cafe :=
  foldl (λ c k,
           match data !! k with
           | Some value => if decide (value = EmptyString) then c
                           else cafe_setattr c k value
           | None => c
           end) c keys.

(** [update_cafe(cafe, user_id)] on a form with field values [data] and
    permission choice [permission].  [db.auto_commit] is declared outside
    these files; it commits the object added to the session. *)
Definition update_cafe (data : gmap string string) (permission : string)
    (user_id : Z) : M cafe_state cafe :=
  λ st,
    let c := object st in
    let keys :=
      if decide (user_id = cafe_user_id c) then ["name"; "slug"; "content"]
      else ["name"; "content"] in
    let c := set_fields data keys c in
    match PERMISSIONS !! permission with
    | None => (Raise (KeyError permission), CafeState c (committed st))
    | Some p =>
        let c := Cafe (cafe_name c) (cafe_slug c) (cafe_content c) p
                   (cafe_user_id c) in
        (Ok c, CafeState c (committed st ++ [c]))
    end.

End CafeForm.

(** * Properties *)

(** ** The rate limiter on the TTL store *)

Lemma count_key_ne_reset_key prefix : prefix +:+ "$c" ≠ prefix +:+ "$r".
Proof. intros H. apply (inj (String.append prefix)) in H. discriminate. Qed.

Lemma set_many_pair (k1 k2 : string) (v1 v2 : pyval) (e : Z) (s : TTL.store) :
  ((λ v, (v, e)) <$> (<[k1 := v1]> {[k2 := v2]})) ∪ s
  = <[k1 := (v1, e)]> (<[k2 := (v2, e)]> s).
Proof.
  rewrite fmap_insert, map_fmap_singleton.
  by rewrite <- insert_union_l, <- insert_union_singleton_l.
Qed.

(** The first branch: both values read are false ([None] or 0). *)
Lemma ratelimit_cold now prefix count duration (s : TTL.store) :
  truthy (TTL.read now s (prefix +:+ "$c")) = false →
  truthy (TTL.read now s (prefix +:+ "$r")) = false →
  ratelimit now prefix count duration s
  = (Ok (count - 1, duration),
     <[prefix +:+ "$c" := (PInt (count - 1), now + duration)]>
       (<[prefix +:+ "$r" := (PInt (duration + now), now + duration)]> s)).
Proof.
  intros Hc Hr. unfold ratelimit, bind. cbn.
  rewrite Hc, Hr. cbn. unfold TTL.set_many.
  by rewrite set_many_pair.
Qed.

(** The [else] branch when both keys hold integers. *)
Lemma ratelimit_active now prefix count duration (s : TTL.store) stored reset_at :
  TTL.read now s (prefix +:+ "$c") = PInt stored →
  TTL.read now s (prefix +:+ "$r") = PInt reset_at →
  ¬ (stored = 0 ∧ reset_at = 0) →
  ratelimit now prefix count duration s
  = if (stored <=? 0) && negb (reset_at - now =? 0)
    then (Ok (stored, reset_at - now), s)
    else (Ok (stored - 1, reset_at - now),
          <[prefix +:+ "$c" := (PInt (stored - 1), now + (reset_at - now))]> s).
Proof.
  intros Hc Hr Hnz. unfold ratelimit, bind. cbn.
  rewrite Hc, Hr. cbn.
  destruct (negb (negb (stored =? 0)) && negb (negb (reset_at =? 0))) eqn:E.
  { exfalso. apply Hnz. rewrite !negb_involutive in E.
    by apply andb_true_iff in E as [?%Z.eqb_eq ?%Z.eqb_eq]. }
  by destruct ((stored <=? 0) && negb (reset_at - now =? 0)).
Qed.

Lemma window_state_read prefix reset_at remaining s now :
  window_state prefix reset_at remaining s → now < reset_at →
  TTL.read now s (prefix +:+ "$c") = PInt remaining
  ∧ TTL.read now s (prefix +:+ "$r") = PInt reset_at.
Proof.
  intros [Hc Hr] Hlt. unfold TTL.read. rewrite Hc, Hr.
  by destruct (Z.ltb_spec now reset_at); [|lia].
Qed.

Lemma window_state_cold prefix now count duration (s : TTL.store) :
  window_state prefix (now + duration) (count - 1)
    (<[prefix +:+ "$c" := (PInt (count - 1), now + duration)]>
       (<[prefix +:+ "$r" := (PInt (duration + now), now + duration)]> s)).
Proof.
  split.
  - by rewrite lookup_insert_eq.
  - rewrite lookup_insert_ne by apply count_key_ne_reset_key.
    rewrite lookup_insert_eq. do 3 f_equal. lia.
Qed.

(** One call inside the window: the counter goes down by one unless it is
    already at or below zero, and the reset key is left as it is. *)
Lemma ratelimit_in_window prefix reset_at remaining s now count duration :
  window_state prefix reset_at remaining s → now < reset_at → reset_at ≠ 0 →
  ∃ s', ratelimit now prefix count duration s
        = (Ok (if remaining <=? 0 then remaining else remaining - 1,
               reset_at - now), s')
        ∧ window_state prefix reset_at
            (if remaining <=? 0 then remaining else remaining - 1) s'.
Proof.
  intros Hw Hlt Hnz.
  destruct (window_state_read _ _ _ _ _ Hw Hlt) as [Hc Hr].
  rewrite (ratelimit_active _ _ _ _ _ _ _ Hc Hr) by lia.
  replace (reset_at - now =? 0) with false by (symmetry; apply Z.eqb_neq; lia).
  rewrite andb_true_r.
  destruct (remaining <=? 0); [by eexists|].
  eexists; split; [done|]. destruct Hw as [Hwc Hwr]. split.
  - rewrite lookup_insert_eq. do 2 f_equal. lia.
  - by rewrite lookup_insert_ne by apply count_key_ne_reset_key.
Qed.

Lemma calls_cons prefix count duration t ts (s : TTL.store) :
  calls prefix count duration (t :: ts) s
  = (ratelimit t prefix count duration s)
    :: calls prefix count duration ts (ratelimit t prefix count duration s).2.
Proof. cbn [calls]. by destruct (ratelimit t prefix count duration s). Qed.

Lemma calls_in_window prefix reset_at count duration floor ts :
  reset_at ≠ 0 → floor ≤ 0 →
  Forall (λ t, t < reset_at) ts →
  ∀ remaining s,
    window_state prefix reset_at remaining s → floor ≤ remaining →
    ∃ trace,
      calls prefix count duration ts s = returned <$> trace
      ∧ Forall (λ x, reset_entry prefix x = Some (PInt reset_at, reset_at)
                     ∧ floor ≤ remaining_of x ≤ remaining) trace
      ∧ StronglySorted (λ a b, b ≤ a) (remaining_of <$> trace).
Proof.
  intros Hnz Hfloor Hts.
  induction Hts as [|t ts Ht Hts IH]; intros remaining s Hw Hge.
  { exists []. repeat split; constructor. }
  destruct (ratelimit_in_window prefix reset_at remaining s t count duration
              Hw Ht Hnz) as (s' & Hcall & Hw').
  set (r' := if remaining <=? 0 then remaining else remaining - 1) in *.
  assert (floor ≤ r' ≤ remaining) as Hr'.
  { subst r'. destruct (Z.leb_spec remaining 0); lia. }
  destruct (IH r' s' Hw' ltac:(lia)) as (trace & Hrest & Hall & Hsorted).
  exists ((r', reset_at - t, s') :: trace).
  rewrite calls_cons, Hcall. cbn [snd]. rewrite Hrest. repeat split.
  - constructor.
    + split; [apply Hw' | done].
    + eapply Forall_impl; [exact Hall|]. cbn. intros x [? ?]. split; [done | lia].
  - constructor; [done|]. apply Forall_fmap.
    eapply Forall_impl; [exact Hall|]. cbn. intros x [? ?].
    unfold remaining_of in *. cbn. lia.
Qed.

(** C2 (as amended).  In the [else] branch with both keys holding integers
    (not both zero), [ratelimit] returns the stored remaining and
    [reset_at - now] without writing anything exactly when the stored
    remaining is at most 0 and [reset_at - now] is not 0; otherwise it
    decrements, rewrites the counter key alone with a time to live of
    [reset_at - now], and returns the decremented value. *)
Theorem ratelimit_active_branch now prefix count duration (s : TTL.store)
    stored reset_at :
  TTL.read now s (prefix +:+ "$c") = PInt stored →
  TTL.read now s (prefix +:+ "$r") = PInt reset_at →
  ¬ (stored = 0 ∧ reset_at = 0) →
  let expires := reset_at - now in
  (stored ≤ 0 ∧ expires ≠ 0 →
     ratelimit now prefix count duration s = (Ok (stored, expires), s))
  ∧ (¬ (stored ≤ 0 ∧ expires ≠ 0) →
     ∃ s', ratelimit now prefix count duration s
           = (Ok (stored - 1, expires), s')
        ∧ s' = <[prefix +:+ "$c" := (PInt (stored - 1), now + expires)]> s
        ∧ s' !! (prefix +:+ "$r") = s !! (prefix +:+ "$r")).
Proof.
  intros Hc Hr Hnz expires. subst expires.
  rewrite (ratelimit_active _ _ _ _ _ _ _ Hc Hr Hnz).
  destruct (Z.leb_spec stored 0), (Z.eqb_spec (reset_at - now) 0); cbn; split;
    try (intros; lia); intros _.
  all: try done.
  all: eexists; split; [done|]; split; [done|];
    by rewrite lookup_insert_ne by apply count_key_ne_reset_key.
Qed.

Lemma ratelimit_active_branch_witness :
  let s : TTL.store :=
    <["ip:1$c" := (PInt 2, 160)]> {["ip:1$r" := (PInt 160, 160)]} in
  ∃ s', ratelimit 130 "ip:1" 3 60 s = (Ok (2 - 1, 160 - 130), s')
        ∧ s' = <["ip:1$c" := (PInt (2 - 1), 130 + (160 - 130))]> s
        ∧ s' !! "ip:1$r" = s !! "ip:1$r".
Proof.
  intros s.
  apply (ratelimit_active_branch 130 "ip:1" 3 60 s 2 160);
    [reflexivity | reflexivity | lia | lia].
Defined.

(** C2, counterexample.  The reset time (95) has passed at clock reading 100
    but both keys are still stored, and the stored remaining is 0: the claim's
    condition for not decrementing fails ([95 - 100 > 0] is false), yet
    [ratelimit] returns [(0, -5)] and writes nothing.  And with the counter key
    alone present, holding 0, the first branch is taken: the call returns
    [count - 1] and writes the reset key as well. *)
Lemma ratelimit_elapsed_reset_not_decremented :
  let s : TTL.store :=
    <["ip:1$c" := (PInt 0, 200)]> {["ip:1$r" := (PInt 95, 200)]} in
  let s1 : TTL.store := {["ip:1$c" := (PInt 0, 200)]} in
  (TTL.read 100 s "ip:1$c" = PInt 0
   ∧ TTL.read 100 s "ip:1$r" = PInt 95
   ∧ ¬ (0 ≤ 0 ∧ 95 - 100 > 0)
   ∧ ratelimit 100 "ip:1" 3 60 s = (Ok (0, -5), s)
   ∧ ∀ s', ratelimit 100 "ip:1" 3 60 s ≠ (Ok (0 - 1, 95 - 100), s'))
  ∧ (TTL.read 100 s1 "ip:1$c" = PInt 0
     ∧ TTL.read 100 s1 "ip:1$r" = PNone
     ∧ ratelimit 100 "ip:1" 3 60 s1
       = (Ok (2, 60),
          <["ip:1$c" := (PInt 2, 160)]> (<["ip:1$r" := (PInt 160, 160)]> s1))).
Proof.
  intros s s1.
  assert (ratelimit 100 "ip:1" 3 60 s = (Ok (0, -5), s)) as Hcall
    by (vm_compute; reflexivity).
  split.
  - split; [reflexivity|]. split; [reflexivity|]. split; [lia|].
    split; [exact Hcall|].
    intros s'. rewrite Hcall. discriminate.
  - split; [reflexivity|]. split; [reflexivity|].
    by rewrite ratelimit_cold.
Qed.

(** C5.  On a cold store the call seeds [count - 1] and the reset time
    [now + duration], writes both keys with a time to live of [duration] and
    returns [(count - 1, duration)]; four calls with count 3 and duration 60
    inside the window return remaining 2, 1, 0, 0 and seconds until reset
    that do not increase. *)
Theorem ratelimit_window_of_three prefix (s : TTL.store) t0 :
  TTL.read t0 s (prefix +:+ "$c") = PNone →
  TTL.read t0 s (prefix +:+ "$r") = PNone →
  (∀ count duration,
     ratelimit t0 prefix count duration s
     = (Ok (count - 1, duration),
        <[prefix +:+ "$c" := (PInt (count - 1), t0 + duration)]>
          (<[prefix +:+ "$r" := (PInt (t0 + duration), t0 + duration)]> s)))
  ∧ (∀ t1 t2 t3,
       0 ≤ t0 → t0 ≤ t1 → t1 ≤ t2 → t2 ≤ t3 → t3 < t0 + 60 →
       ∃ s1 s2 s3 s4 e1 e2 e3,
         ratelimit t0 prefix 3 60 s = (Ok (2, 60), s1)
         ∧ ratelimit t1 prefix 3 60 s1 = (Ok (1, e1), s2)
         ∧ ratelimit t2 prefix 3 60 s2 = (Ok (0, e2), s3)
         ∧ ratelimit t3 prefix 3 60 s3 = (Ok (0, e3), s4)
         ∧ e3 ≤ e2 ∧ e2 ≤ e1 ∧ e1 ≤ 60).
Proof.
  intros Hc Hr.
  assert (∀ count duration,
     ratelimit t0 prefix count duration s
     = (Ok (count - 1, duration),
        <[prefix +:+ "$c" := (PInt (count - 1), t0 + duration)]>
          (<[prefix +:+ "$r" := (PInt (t0 + duration), t0 + duration)]> s)))
    as Hcold.
  { intros count duration.
    rewrite ratelimit_cold by (by rewrite ?Hc, ?Hr).
    by rewrite (Z.add_comm duration t0). }
  split; [exact Hcold|].
  intros t1 t2 t3 H0 H1 H2 H3 H4.
  pose proof (window_state_cold prefix t0 3 60 s) as Hw1.
  rewrite (Z.add_comm 60 t0) in Hw1.
  destruct (ratelimit_in_window prefix (t0 + 60) _ _ t1 3 60 Hw1)
    as (s2 & E2 & Hw2); [lia .. |].
  destruct (ratelimit_in_window prefix (t0 + 60) _ _ t2 3 60 Hw2)
    as (s3 & E3 & Hw3); [lia .. |].
  destruct (ratelimit_in_window prefix (t0 + 60) _ _ t3 3 60 Hw3)
    as (s4 & E4 & Hw4); [lia .. |].
  cbn in E2, E3, E4.
  eexists _, s2, s3, s4, _, _, _.
  split; [apply Hcold|].
  split; [exact E2|]. split; [exact E3|]. split; [exact E4|]. lia.
Qed.

Lemma ratelimit_window_of_three_witness :
  ∃ s1 s2 s3 s4 e1 e2 e3,
    ratelimit 100 "ip:1" 3 60 (∅ : TTL.store) = (Ok (2, 60), s1)
    ∧ ratelimit 101 "ip:1" 3 60 s1 = (Ok (1, e1), s2)
    ∧ ratelimit 130 "ip:1" 3 60 s2 = (Ok (0, e2), s3)
    ∧ ratelimit 159 "ip:1" 3 60 s3 = (Ok (0, e3), s4)
    ∧ e3 ≤ e2 ∧ e2 ≤ e1 ∧ e1 ≤ 60.
Proof.
  apply (ratelimit_window_of_three "ip:1" ∅ 100); [reflexivity | reflexivity | lia ..].
Defined.

(** C7.  A window opened by a call on a cold store, followed by any calls
    whose clock readings lie in the window: every call returns, the reset
    key holds after each call the reset time and expiry written by the first
    one, and the remaining values returned never increase and never go below
    [min 0 (count - 1)] (0 for a positive count). *)
Theorem ratelimit_window_invariant prefix count duration t0 ts (s : TTL.store) :
  0 ≤ t0 →
  TTL.read t0 s (prefix +:+ "$c") = PNone →
  TTL.read t0 s (prefix +:+ "$r") = PNone →
  Forall (λ t, t0 ≤ t < t0 + duration) ts →
  ∃ trace,
    calls prefix count duration (t0 :: ts) s = returned <$> trace
    ∧ Forall (λ x, reset_entry prefix x
                   = Some (PInt (t0 + duration), t0 + duration)
                   ∧ Z.min 0 (count - 1) ≤ remaining_of x) trace
    ∧ StronglySorted (λ a b, b ≤ a) (remaining_of <$> trace).
Proof.
  intros H0 Hc Hr Hts.
  pose proof (window_state_cold prefix t0 count duration s) as Hw.
  set (s1 := <[prefix +:+ "$c" := (PInt (count - 1), t0 + duration)]>
               (<[prefix +:+ "$r" := (PInt (duration + t0), t0 + duration)]> s))
    in *.
  assert (ratelimit t0 prefix count duration s = (Ok (count - 1, duration), s1))
    as Hfirst by (apply ratelimit_cold; by rewrite ?Hc, ?Hr).
  assert (∃ trace,
    calls prefix count duration ts s1 = returned <$> trace
    ∧ Forall (λ x, reset_entry prefix x
                   = Some (PInt (t0 + duration), t0 + duration)
                   ∧ Z.min 0 (count - 1) ≤ remaining_of x ≤ count - 1) trace
    ∧ StronglySorted (λ a b, b ≤ a) (remaining_of <$> trace))
    as (trace & Hrest & Hall & Hsorted).
  { destruct ts as [|t ts'].
    - exists []. repeat split; constructor.
    - assert (0 < duration) by (apply Forall_cons in Hts as [? _]; lia).
      apply (calls_in_window prefix (t0 + duration) count duration
               (Z.min 0 (count - 1)) (t :: ts')); [lia | lia | | exact Hw | lia].
      eapply Forall_impl; [exact Hts|]. cbn. lia. }
  exists ((count - 1, duration, s1) :: trace).
  rewrite calls_cons, Hfirst. cbn [snd]. rewrite Hrest. repeat split.
  - constructor.
    + split; [apply Hw | unfold remaining_of; cbn; lia].
    + eapply Forall_impl; [exact Hall|]. cbn. intros x [? ?]. split; [done | lia].
  - constructor; [done|]. apply Forall_fmap.
    eapply Forall_impl; [exact Hall|]. cbn. intros x [? ?].
    unfold remaining_of in *. cbn. lia.
Qed.

Lemma ratelimit_window_invariant_witness :
  ∃ trace,
    calls "ip:1" 3 60 [100; 100; 110; 159; 159; 159] (∅ : TTL.store)
    = returned <$> trace
    ∧ Forall (λ x, reset_entry "ip:1" x = Some (PInt (100 + 60), 100 + 60)
                   ∧ Z.min 0 (3 - 1) ≤ remaining_of x) trace
    ∧ StronglySorted (λ a b, b ≤ a) (remaining_of <$> trace).
Proof.
  apply (ratelimit_window_invariant "ip:1" 3 60 100 [100; 110; 159; 159; 159] ∅);
    [lia | reflexivity | reflexivity | repeat constructor; lia].
Defined.

(** ** Cache keys *)

Lemma get_key_scalar m i :
  get_key m (Scalar i) = generate_cache_prefix m "get" +:+ str i.
Proof. done. Qed.

Lemma unique_key_single m pk target :
  _unique_key m target [pk] = get_key m (Scalar (getattr target pk)).
Proof.
  unfold _unique_key, _unique_suffix, get_key. done.
Qed.

Lemma unique_key_tuple m target pks :
  _unique_key m target pks = get_key m (Tuple (getattr target <$> pks)).
Proof.
  unfold _unique_key, _unique_suffix, get_key.
  by rewrite <- list_fmap_compose.
Qed.

(** C9.  The cache keys are functions of the mapped class, the operation and
    the key parts alone: equal arguments give equal keys, the listeners and
    [CacheQuery.get] build the same key for the same object, and two distinct
    primary keys of a class give distinct [get] keys. *)
Theorem cache_keys_deterministic_and_distinct :
  (∀ m m' name name', m = m' → name = name' →
     generate_cache_prefix m name = generate_cache_prefix m' name')
  ∧ (∀ m m' i i', m = m' → i = i' → get_key m i = get_key m' i')
  ∧ (∀ p p' kwargs kwargs', p = p' → kwargs = kwargs' →
       filter_key p kwargs = filter_key p' kwargs')
  ∧ (∀ m target,
       _unique_key m target (primary_key m)
       = get_key m (Tuple (getattr target <$> primary_key m)))
  ∧ (∀ m pk target, primary_key m = [pk] →
       _unique_key m target (primary_key m)
       = get_key m (Scalar (getattr target pk)))
  ∧ (∀ m i j, i ≠ j → get_key m (Scalar i) ≠ get_key m (Scalar j)).
Proof.
  split; [by intros ???? -> ->|].
  split; [by intros ???? -> ->|].
  split; [by intros ???? -> ->|].
  split; [intros; apply unique_key_tuple|].
  split; [intros m pk target ->; apply unique_key_single|].
  intros m i j Hne Heq. apply Hne.
  rewrite !get_key_scalar in Heq.
  apply (inj (String.append _)) in Heq.
  by apply (inj pretty) in Heq.
Qed.

Lemma cache_keys_deterministic_and_distinct_witness :
  get_key (Mapper "zq_topic" None ["id"]) (Scalar 3)
  ≠ get_key (Mapper "zq_topic" None ["id"]) (Scalar 1).
Proof.
  apply (proj2 (proj2 (proj2 (proj2 (proj2
           cache_keys_deterministic_and_distinct))))).
  lia.
Defined.

(** ** The listeners *)

Section Listeners.
Context {C : Type} `{!CacheBackend C}.

(** C1 (as amended).  A listener does not catch what the cache raises: when
    the cache call it makes fails, the listener fails with the same
    exception, for every backend. *)
Theorem listeners_raise_cache_failures now (m : mapper) (target : entity)
    (c c' : C) (e : exn) :
  (cache_inc now (generate_cache_prefix m "count") c = (Raise e, c') →
     receive_after_insert now m target c = (Raise e, c'))
  ∧ (cache_set now (_unique_key m target (primary_key m)) (PObj target)
       (CACHE_TIMES !!! "get") c = (Raise e, c') →
     receive_after_update now m target c = (Raise e, c'))
  ∧ (cache_delete_many
       [_unique_key m target (primary_key m); generate_cache_prefix m "count"] c
     = (Raise e, c') →
     receive_after_delete m target c = (Raise e, c')).
Proof.
  unfold receive_after_insert, receive_after_update, receive_after_delete, bind.
  split; [|split]; intros H; by rewrite ?H.
Qed.

End Listeners.

Lemma listeners_raise_cache_failures_witness :
  let m := Mapper "zq_topic" None ["id"] in
  let target := Entity (λ _, 7) in
  receive_after_insert 100 m target tt = (Raise StoreUnavailable, tt)
  ∧ receive_after_update 100 m target tt = (Raise StoreUnavailable, tt)
  ∧ receive_after_delete m target tt = (Raise StoreUnavailable, tt).
Proof.
  intros m target.
  destruct (listeners_raise_cache_failures 100 m target tt tt StoreUnavailable)
    as (Hins & Hupd & Hdel).
  split; [apply Hins; reflexivity|].
  split; [apply Hupd; reflexivity | apply Hdel; reflexivity].
Defined.

(** C1, counterexample.  With an unreachable cache each listener raises
    [StoreUnavailable]: none of the three returns normally. *)
Lemma listeners_do_not_swallow_failures :
  let m := Mapper "zq_topic" None ["id"] in
  let target := Entity (λ _, 7) in
  (receive_after_insert 100 m target tt).1 = Raise StoreUnavailable
  ∧ (receive_after_update 100 m target tt).1 = Raise StoreUnavailable
  ∧ (receive_after_delete m target tt).1 = Raise StoreUnavailable
  ∧ (receive_after_insert 100 m target tt).1 ≠ Ok tt
  ∧ (receive_after_update 100 m target tt).1 ≠ Ok tt
  ∧ (receive_after_delete m target tt).1 ≠ Ok tt.
Proof. cbn. repeat split; discriminate. Qed.

(** ** Counting *)

Lemma matches_nil e : matches [] e = true.
Proof. done. Qed.

Lemma filter_matches_nil (table : list entity) :
  filter (λ e, matches [] e) table = table.
Proof.
  induction table as [|e table IH]; [done|].
  by rewrite filter_cons_True, IH by done.
Qed.

Lemma delete_pair_lookup (k1 k2 k : string) (s : TTL.store) :
  delete k1 (delete k2 s) !! k
  = if decide (k = k1 ∨ k = k2) then None else s !! k.
Proof.
  destruct (decide (k = k1 ∨ k = k2)) as [[->| ->]|Hne].
  - by rewrite lookup_delete_eq.
  - destruct (decide (k1 = k2)) as [->|?].
    + by rewrite lookup_delete_eq.
    + by rewrite lookup_delete_ne, lookup_delete_eq.
  - rewrite !lookup_delete_ne by (intros ->; tauto). done.
Qed.

(** C6.  [receive_after_delete] removes the entry that [CacheQuery.get]
    reads for the primary key of the deleted object (the key of the tuple of
    its primary key values, which for a one-column key is the key of the
    scalar) and the class's [count] key, and nothing else: no count is
    decremented.  A [get] of that primary key then goes to the database, and
    the count that follows finds no cached value, runs the count query,
    returns the number of rows and caches it for a day. *)
Theorem after_delete_forces_recount now (m : mapper) (target : entity)
    (s : TTL.store) (table : list entity) (log : list query) :
  let ident := Tuple (getattr target <$> primary_key m) in
  let key := get_key m ident in
  let count_key := generate_cache_prefix m "count" in
  ∃ s',
    receive_after_delete m target s = (Ok tt, s')
    ∧ (∀ k, s' !! k = if decide (k = key ∨ k = count_key) then None else s !! k)
    ∧ match primary_key m with
      | [pk] => key = get_key m (Scalar (getattr target pk))
      | _ => True
      end
    ∧ TTL.read now s' key = PNone
    ∧ issued (get now m ident (Session s' table log)).2 = log ++ [QueryGet ident]
    ∧ TTL.read now s' count_key = PNone
    ∧ filter_count now m [] (Session s' table log)
      = (Ok (PInt (Z.of_nat (length table))),
         Session (<[count_key := (PInt (Z.of_nat (length table)), now + 86400)]> s')
           table (log ++ [QueryCount []])).
Proof.
  intros ident key count_key.
  assert (_unique_key m target (primary_key m) = key) as Hkey
    by apply unique_key_tuple.
  exists (delete key (delete count_key s)).
  assert (TTL.read now (delete key (delete count_key s)) count_key = PNone)
    as Hread.
  { unfold TTL.read. rewrite delete_pair_lookup.
    by rewrite decide_True by tauto. }
  assert (TTL.read now (delete key (delete count_key s)) key = PNone)
    as Hget.
  { unfold TTL.read. rewrite delete_pair_lookup.
    by rewrite decide_True by tauto. }
  split.
  { unfold receive_after_delete. by rewrite Hkey. }
  split; [intros k; apply delete_pair_lookup|].
  split.
  { subst key ident. by destruct (primary_key m) as [|pk [|]]. }
  split; [exact Hget|].
  split.
  { unfold get, bind, on_cache. cbn. fold ident. fold key.
    rewrite Hget. cbn. by destruct (filter _ table). }
  split; [exact Hread|].
  unfold filter_count, bind, on_cache. cbn.
  fold count_key. rewrite Hread. cbn.
  by rewrite filter_matches_nil.
Qed.



(** ** Batch get *)

Section BatchAnyBackend.
Context {C : Type} `{!CacheBackend C}.

Lemma itervalues_state (d : gmap string pyval) (idents : list Z) (w : session C) :
  (_itervalues d idents w).2 = w.
Proof.
  induction idents as [|k rest IH]; [done|].
  cbn [_itervalues]. unfold bind, subscript.
  destruct (d !! str k); [|done]. cbn.
  destruct (_itervalues d rest w) as [[items|e] w'] eqn:E; cbn in *; by subst.
Qed.

Lemma subscript_all_state (d : gmap string pyval) (idents : list Z) (w : session C) :
  (subscript_all d idents w).2 = w.
Proof.
  induction idents as [|k rest IH]; [done|].
  cbn [subscript_all]. unfold bind, subscript.
  destruct (d !! str k); [|done]. cbn.
  destruct (subscript_all d rest w) as [[items|e] w'] eqn:E; cbn in *; by subst.
Qed.

(** What [get_many] leaves behind is what [get_dict] leaves behind. *)
Lemma get_many_state now m idents clean (w : session C) :
  (get_many now m idents clean w).2 = (get_dict now m idents w).2.
Proof.
  unfold get_many, bind.
  destruct (get_dict now m idents w) as [[d|e] w']; [|done].
  destruct clean; [apply itervalues_state | apply subscript_all_state].
Qed.

(** C8 (as amended).  For a class whose primary key has several columns and
    a non-empty list of ids, [get_dict] and [get_many] raise at the statement
    [raise NotImplemented], before the cache or the database is touched. *)
Theorem get_many_composite_key_raises now (m : mapper) (idents : list Z)
    (clean : bool) (w : session C) :
  (1 < length (primary_key m))%nat →
  idents ≠ [] →
  get_dict now m idents w = (Raise RaiseNotImplemented, w)
  ∧ get_many now m idents clean w = (Raise RaiseNotImplemented, w).
Proof.
  intros Hpk Hne.
  assert (get_dict now m idents w = (Raise RaiseNotImplemented, w)) as Hdict.
  { unfold get_dict. rewrite bool_decide_eq_false_2 by done.
    destruct (primary_key m) as [|a [|b l]]; cbn in Hpk; [lia | lia | done]. }
  split; [done|]. unfold get_many, bind. by rewrite Hdict.
Qed.

End BatchAnyBackend.

Lemma get_many_composite_key_raises_witness :
  let m := Mapper "zq_cafe_member" None ["cafe_id"; "user_id"] in
  let w : session TTL.store := Session ∅ [] [] in
  get_dict 100 m [7] w = (Raise RaiseNotImplemented, w)
  ∧ get_many 100 m [7] true w = (Raise RaiseNotImplemented, w).
Proof.
  intros m w.
  apply (get_many_composite_key_raises 100 m [7] true w); [cbn; lia | discriminate].
Defined.

(** C8, counterexample.  With an empty list of ids the call returns the
    empty list, also for a class with a two-column primary key. *)
Lemma get_many_composite_key_empty_returns :
  let m := Mapper "zq_cafe_member" None ["cafe_id"; "user_id"] in
  let w : session TTL.store := Session ∅ [] [] in
  length (primary_key m) = 2%nat
  ∧ get_many 100 m [] true w = (Ok [], w)
  ∧ get_many 100 m [] true w ≠ (Raise RaiseNotImplemented, w).
Proof. intros m w. repeat split. discriminate. Qed.

Section BatchTTL.
Implicit Types (s : TTL.store) (table : list entity) (log : list query).

Lemma get_dict_lookup now s (keys : gset string) (k : string) :
  (set_to_map (λ k, (k, TTL.read now s k)) keys : gmap string pyval) !! k
  = if decide (k ∈ keys) then Some (TTL.read now s k) else None.
Proof.
  destruct (decide (k ∈ keys)) as [Hin|Hnin].
  - apply lookup_set_to_map; [by intros ???? [=] | eauto].
  - apply eq_None_not_Some. intros [v Hv].
    apply lookup_set_to_map in Hv as (k' & Hk' & [= -> _]); [done|].
    by intros ???? [=].
Qed.

Lemma missed_idents_eval {S} prefix (rv : gmap string pyval)
    (f : Z → pyval) idents (w : S) :
  (∀ i, i ∈ idents → rv !! (prefix +:+ str i) = Some (f i)) →
  missed_idents prefix rv idents w
  = (Ok (list_to_set (filter (λ i, is_none (f i)) idents)), w).
Proof.
  induction idents as [|i rest IH]; intros Hrv; [done|].
  cbn [missed_idents]. unfold bind, subscript.
  rewrite (Hrv i) by left. unfold ret at 1.
  rewrite IH by (intros; apply Hrv; by right). unfold ret.
  rewrite filter_cons. destruct (is_none (f i)).
  - rewrite decide_True by done. done.
  - rewrite decide_False by (by intros []). done.
Qed.

Lemma missed_in_empty now s prefix idents :
  missed_in now s prefix idents = ∅
  ↔ Forall (λ i, TTL.read now s (prefix +:+ str i) ≠ PNone) idents.
Proof.
  unfold missed_in. induction idents as [|i rest IH].
  { split; [constructor | done]. }
  rewrite filter_cons, Forall_cons.
  destruct (TTL.read now s (prefix +:+ str i)) eqn:E; cbn.
  - rewrite decide_True by done. split; [|by intros []].
    intros Hempty. exfalso. cbn in Hempty.
    assert (i ∈ (∅ : gset Z)) as Hin; [|by apply not_elem_of_empty in Hin].
    rewrite <- Hempty. apply elem_of_union_l. by apply elem_of_singleton.
  - rewrite decide_False by (by intros []). rewrite IH.
    split; [by intros ? | by intros [_ ?]].
  - rewrite decide_False by (by intros []). rewrite IH.
    split; [by intros ? | by intros [_ ?]].
Qed.

Lemma get_dict_state now m pk idents s table log :
  primary_key m = [pk] →
  let prefix := generate_cache_prefix m "get" in
  let missed := missed_in now s prefix idents in
  ∃ s',
    (get_dict now m idents (Session s table log)).2
    = Session s' table
        (log ++ if decide (missed = ∅) then [] else [QueryIn pk missed]).
Proof.
  intros Hpk prefix missed. unfold get_dict.
  destruct (decide (idents = [])) as [->|Hids].
  { exists s. cbn. by rewrite app_nil_r. }
  rewrite bool_decide_eq_false_2 by done.
  rewrite Hpk. fold prefix.
  unfold bind at 1. unfold on_cache at 1.
  cbn [cache rows issued cache_get_dict TTL.backend TTL.get_dict].
  rewrite list_to_set_elements_L.
  unfold bind at 1.
  rewrite (missed_idents_eval prefix _ (λ i, TTL.read now s (prefix +:+ str i))).
  2:{ intros i Hi. rewrite get_dict_lookup. rewrite decide_True; [done|].
      apply elem_of_list_to_set, list_elem_of_fmap. eauto. }
  fold (missed_in now s prefix idents). fold missed.
  destruct (decide (missed = ∅)) as [Hempty|Hne].
  - rewrite bool_decide_eq_true_2 by done. exists s. cbn. by rewrite app_nil_r.
  - rewrite bool_decide_eq_false_2 by done.
    unfold bind at 1. cbn [query_in run_query cache rows issued].
    destruct (store_missing _ _ _ _) as [to_cache rv].
    unfold bind, on_cache. cbn. eauto.
Qed.


(** C4 (as amended).  For a class with a one-column primary key, a call of
    [get_many] issues exactly one query, [pk IN missed], when at least one id
    misses the cache, whatever the number of misses, and no query when every
    id hits. *)
Theorem get_many_single_round_trip now m pk idents clean s table log :
  primary_key m = [pk] →
  let prefix := generate_cache_prefix m "get" in
  let after := (get_many now m idents clean (Session s table log)).2 in
  rows after = table
  ∧ (Exists (λ i, TTL.read now s (prefix +:+ str i) = PNone) idents →
     issued after = log ++ [QueryIn pk (missed_in now s prefix idents)])
  ∧ (Forall (λ i, TTL.read now s (prefix +:+ str i) ≠ PNone) idents →
     issued after = log).
Proof.
  intros Hpk prefix after. subst after. rewrite get_many_state.
  destruct (get_dict_state now m pk idents s table log Hpk) as [s' ->].
  fold prefix. cbn [rows issued]. split; [done|].
  pose proof (missed_in_empty now s prefix idents) as Hempty.
  split.
  - intros Hex. rewrite decide_False; [done|].
    intros Hall%Hempty. apply Exists_exists in Hex as (i & Hi & Hmiss).
    by eapply Forall_forall in Hall.
  - intros Hall%Hempty. rewrite decide_True by done. apply app_nil_r.
Qed.

End BatchTTL.

Lemma get_many_single_round_trip_witness :
  let m := Mapper "zq_topic" None ["id"] in
  let e (i : Z) := Entity (λ _, i) in
  let s : TTL.store :=
    <["db:get:zq_topic:1" := (PObj (e 1), 1000)]>
      {["db:get:zq_topic:2" := (PObj (e 2), 1000)]} in
  let table := [e 1; e 2; e 3; e 4; e 5] in
  let after := (get_many 100 m [5; 1; 4; 2; 3] true (Session s table [])).2 in
  issued after = [] ++ [QueryIn "id" (missed_in 100 s "db:get:zq_topic:" [5; 1; 4; 2; 3])]
  ∧ missed_in 100 s "db:get:zq_topic:" [5; 1; 4; 2; 3] = {[3; 4; 5]}.
Proof.
  intros m e s table after. split.
  - apply (get_many_single_round_trip 100 m "id" [5; 1; 4; 2; 3] true s table []);
      [reflexivity|].
    apply Exists_cons_hd. reflexivity.
  - vm_compute. reflexivity.
Defined.

(** C4, counterexample.  For a class with a two-column primary key the call
    raises before any query: id 7 misses the cache and no query is issued. *)
Lemma get_many_composite_key_no_query :
  let m := Mapper "zq_cafe_member" None ["cafe_id"; "user_id"] in
  let w : session TTL.store := Session ∅ [] [] in
  TTL.read 100 ∅ (generate_cache_prefix m "get" +:+ str 7) = PNone
  ∧ get_many 100 m [7] true w = (Raise RaiseNotImplemented, w)
  ∧ issued (get_many 100 m [7] true w).2 = [].
Proof. intros m w. repeat split. Qed.

(** C3.  A class that declares cache version 1, with the object of id 1
    cached: [lstrip] strips the digit 1 of the key along with the prefix, the
    dict has no entry ["1"] and [get_many] raises [KeyError] instead of
    returning the cached object. *)
Theorem get_many_cached_id_key_error :
  let m := Mapper "zq_topic" (Some "1") ["id"] in
  let e1 := Entity (λ _, 1) in
  let s : TTL.store := {["db:get:zq_topic|1:1" := (PObj e1, 1000)]} in
  let w := Session s [e1] [] in
  generate_cache_prefix m "get" +:+ str 1 = "db:get:zq_topic|1:1"
  ∧ TTL.read 100 s "db:get:zq_topic|1:1" = PObj e1
  ∧ lstrip (generate_cache_prefix m "get") "db:get:zq_topic|1:1" = ""
  ∧ get_many 100 m [1] true w = (Raise (KeyError "1"), w).
Proof.
  intros m e1 s w.
  split; [reflexivity|]. split; [reflexivity|]. split; [reflexivity|].
  vm_compute. reflexivity.
Qed.

(** ** Batch get when [lstrip] removes exactly the prefix *)

Section BatchInOrder.
Implicit Types (s : TTL.store) (table : list entity) (log : list query).

Lemma strip_keys_lookup now s prefix idents i :
  (∀ j, j ∈ idents → lstrip prefix (prefix +:+ str j) = str j) →
  i ∈ idents →
  strip_keys prefix
    (set_to_map (λ k, (k, TTL.read now s k))
       (list_to_set ((λ j, prefix +:+ str j) <$> idents) : gset string))
  !! str i
  = Some (TTL.read now s (prefix +:+ str i)).
Proof.
  intros Hstrip Hi. unfold strip_keys.
  apply elem_of_list_to_map_1'.
  - intros y Hy. apply list_elem_of_fmap in Hy as ([k v] & [= Hk ->] & Hkv).
    apply elem_of_map_to_list in Hkv. rewrite get_dict_lookup in Hkv.
    case_decide as Hin; [|done]. injection Hkv as <-.
    apply elem_of_list_to_set, list_elem_of_fmap in Hin as (j & -> & Hj).
    cbn in Hk. rewrite (Hstrip j Hj) in Hk.
    apply (inj pretty) in Hk. by subst.
  - apply list_elem_of_fmap.
    exists (prefix +:+ str i, TTL.read now s (prefix +:+ str i)). split.
    + cbn. by rewrite Hstrip.
    + apply elem_of_map_to_list. rewrite get_dict_lookup.
      rewrite decide_True; [done|].
      apply elem_of_list_to_set, list_elem_of_fmap. eauto.
Qed.

Lemma store_missing_snoc prefix pk missing item rv :
  store_missing prefix pk (missing ++ [item]) rv
  = (<[prefix +:+ str (getattr item pk) := PObj item]>
       (store_missing prefix pk missing rv).1,
     <[str (getattr item pk) := PObj item]>
       (store_missing prefix pk missing rv).2).
Proof. unfold store_missing. by rewrite foldl_snoc. Qed.

Lemma store_missing_lookup prefix pk missing rv i :
  (store_missing prefix pk missing rv).2 !! str i
  = match last (filter (λ e, getattr e pk = i) missing) with
    | Some e => Some (PObj e)
    | None => rv !! str i
    end.
Proof.
  induction missing as [|item missing IH] using rev_ind; [done|].
  rewrite store_missing_snoc, filter_app, last_app. cbn [snd].
  rewrite filter_cons, filter_nil.
  destruct (decide (getattr item pk = i)) as [<-|Hne].
  - cbn. by rewrite lookup_insert_eq.
  - cbn. rewrite lookup_insert_ne; [done|].
    intros Heq. apply Hne. by apply (inj pretty).
Qed.

Lemma filter_missing pk (missed : gset Z) table i :
  filter (λ e, getattr e pk = i) (filter (λ e, getattr e pk ∈ missed) table)
  = if decide (i ∈ missed) then filter (λ e, getattr e pk = i) table else [].
Proof.
  induction table as [|e table IH]; [by case_decide|].
  rewrite (filter_cons (λ e, getattr e pk ∈ missed)), (filter_cons _ e table).
  destruct (decide (getattr e pk ∈ missed)) as [Hin|Hnin].
  - rewrite filter_cons, IH.
    destruct (decide (getattr e pk = i)) as [<-|?]; [|done].
    by case_decide.
  - rewrite IH. destruct (decide (getattr e pk = i)) as [<-|?]; [|done].
    by case_decide.
Qed.

Lemma elem_of_missed_in now s prefix idents i :
  i ∈ missed_in now s prefix idents
  ↔ i ∈ idents ∧ TTL.read now s (prefix +:+ str i) = PNone.
Proof.
  unfold missed_in. rewrite elem_of_list_to_set, list_elem_of_filter.
  split; intros [H1 H2]; split; try done.
  - by destruct (TTL.read now s (prefix +:+ str i)).
  - by rewrite H2.
Qed.

Lemma itervalues_eval {S} (d : gmap string pyval) (g : Z → pyval) idents (w : S) :
  (∀ i, i ∈ idents → d !! str i = Some (g i)) →
  _itervalues d idents w
  = (Ok (filter (λ v, is_none v = false) (g <$> idents)), w).
Proof.
  induction idents as [|i rest IH]; intros Hd; [done|].
  cbn [_itervalues]. unfold bind, subscript.
  rewrite (Hd i) by left. unfold ret at 1.
  rewrite IH by (intros; apply Hd; by right). unfold ret.
  rewrite fmap_cons, filter_cons. destruct (is_none (g i)).
  - by rewrite decide_False.
  - by rewrite decide_True.
Qed.

Lemma get_dict_resolved now m pk idents s table log :
  primary_key m = [pk] →
  let prefix := generate_cache_prefix m "get" in
  (∀ i, i ∈ idents → lstrip prefix (prefix +:+ str i) = str i) →
  ∃ d w,
    get_dict now m idents (Session s table log) = (Ok d, w)
    ∧ ∀ i, i ∈ idents → d !! str i = Some (resolved now s prefix pk table i).
Proof.
  intros Hpk prefix Hstrip. unfold get_dict.
  destruct (decide (idents = [])) as [->|Hids].
  { exists ∅, (Session s table log). split; [done|]. by intros i ?%elem_of_nil. }
  rewrite bool_decide_eq_false_2 by done.
  rewrite Hpk. fold prefix.
  unfold bind at 1. unfold on_cache at 1.
  cbn [cache rows issued cache_get_dict TTL.backend TTL.get_dict].
  rewrite list_to_set_elements_L.
  unfold bind at 1.
  rewrite (missed_idents_eval prefix _ (λ i, TTL.read now s (prefix +:+ str i))).
  2:{ intros i Hi. rewrite get_dict_lookup. rewrite decide_True; [done|].
      apply elem_of_list_to_set, list_elem_of_fmap. eauto. }
  fold (missed_in now s prefix idents).
  set (missed := missed_in now s prefix idents).
  set (rv := strip_keys prefix _).
  assert (∀ i, i ∈ idents → rv !! str i = Some (TTL.read now s (prefix +:+ str i)))
    as Hrv by (intros; by apply strip_keys_lookup).
  case_bool_decide as Hmissed.
  - eexists _, _. split; [done|].
    intros i Hi. rewrite (Hrv i Hi). f_equal. unfold resolved.
    destruct (TTL.read now s (prefix +:+ str i)) eqn:E; try done.
    assert (i ∈ missed) as Hin by (by apply elem_of_missed_in).
    rewrite Hmissed in Hin. by apply not_elem_of_empty in Hin.
  - unfold bind at 1. cbn [query_in run_query cache rows issued].
    destruct (store_missing prefix pk _ rv) as [to_cache rv'] eqn:Hstore.
    unfold bind, on_cache, ret. cbn.
    eexists _, _. split; [done|].
    intros i Hi.
    replace rv' with (store_missing prefix pk
      (filter (λ e, getattr e pk ∈ missed) table) rv).2 by (by rewrite Hstore).
    rewrite store_missing_lookup, filter_missing, (Hrv i Hi). unfold resolved.
    destruct (decide (i ∈ missed)) as [Hin|Hnin].
    + apply elem_of_missed_in in Hin as [_ ->].
      by destruct (last _).
    + cbn. destruct (TTL.read now s (prefix +:+ str i)) eqn:E; try done.
      exfalso. apply Hnin. by apply elem_of_missed_in.
Qed.

(** When stripping the keys removes the prefix and nothing more, [get_many]
    returns what is cached or stored for each id, in the order of [idents],
    the ids that resolve to nothing left out. *)
Lemma get_many_in_order now m pk idents s table log :
  primary_key m = [pk] →
  let prefix := generate_cache_prefix m "get" in
  (∀ i, i ∈ idents → lstrip prefix (prefix +:+ str i) = str i) →
  (get_many now m idents true (Session s table log)).1
  = Ok (filter (λ v, is_none v = false)
          (resolved now s prefix pk table <$> idents)).
Proof.
  intros Hpk prefix Hstrip.
  destruct (get_dict_resolved now m pk idents s table log Hpk Hstrip)
    as (d & w & Hdict & Hd).
  unfold get_many, bind. rewrite Hdict.
  by rewrite (itervalues_eval d (resolved now s prefix pk table)).
Qed.

Example get_many_3_1_2 :
  let m := Mapper "zq_topic" None ["id"] in
  let e (i : Z) := Entity (λ _, i) in
  let s : TTL.store := {["db:get:zq_topic:1" := (PObj (e 1), 1000)]} in
  (get_many 100 m [3; 1; 2; 9] true (Session s [e 1; e 2; e 3] [])).1
  = Ok [PObj (e 3); PObj (e 1); PObj (e 2)].
Proof.
  intros m e s.
  rewrite (get_many_in_order 100 m "id"); [reflexivity | reflexivity |].
  intros i Hi. set_unfold. by destruct Hi as [->|[->|[->|[->|[]]]]].
Qed.

End BatchInOrder.

(** * Further properties *)

(** ** The rate limiter: keys, windows and failures *)

(** X1.  [ratelimit] touches the two keys of its prefix and nothing else:
    every other entry of the cache is left as it was, whatever the call
    returns or raises. *)
Theorem ratelimit_frame now prefix count duration (s : TTL.store) (k : string) :
  k ≠ prefix +:+ "$c" → k ≠ prefix +:+ "$r" →
  (ratelimit now prefix count duration s).2 !! k = s !! k.
Proof.
  intros Hc Hr. unfold ratelimit, bind. cbn.
  destruct (negb (truthy (TTL.read now s (prefix +:+ "$c")))
            && negb (truthy (TTL.read now s (prefix +:+ "$r")))).
  - cbn. unfold TTL.set_many. rewrite set_many_pair.
    by rewrite !lookup_insert_ne.
  - destruct (TTL.read now s (prefix +:+ "$r")); cbn; try done.
    destruct (TTL.read now s (prefix +:+ "$c")) as [|stored|]; cbn; try done.
    destruct ((stored <=? 0) && negb (z - now =? 0)); cbn; [done|].
    by rewrite lookup_insert_ne.
Qed.

Lemma ratelimit_frame_witness :
  (ratelimit 100 "ip:1" 3 60
     (<["ip:2$c" := (PInt 7, 150)]> (∅ : TTL.store))).2 !! "ip:2$c"
  = (<["ip:2$c" := (PInt 7, 150)]> (∅ : TTL.store)) !! "ip:2$c".
Proof.
  apply (ratelimit_frame 100 "ip:1" 3 60); discriminate.
Defined.

Lemma calls_fst_cons prefix count duration t ts (s : TTL.store) :
  (calls prefix count duration (t :: ts) s).*1
  = (ratelimit t prefix count duration s).1
    :: (calls prefix count duration ts (ratelimit t prefix count duration s).2).*1.
Proof. by rewrite calls_cons. Qed.

Lemma calls_closed_form prefix reset_at count duration ts :
  reset_at ≠ 0 →
  Forall (λ t, t < reset_at) ts →
  ∀ remaining s,
    window_state prefix reset_at remaining s →
    (calls prefix count duration ts s).*1
    = imap (λ k t, Ok (Z.max (remaining - Z.of_nat (S k)) (Z.min 0 remaining),
                       reset_at - t)) ts.
Proof.
  intros Hnz Hts. induction Hts as [|t ts Ht Hts IH]; intros remaining s Hw.
  { done. }
  destruct (ratelimit_in_window prefix reset_at remaining s t count duration
              Hw Ht Hnz) as (s' & Hcall & Hw').
  rewrite calls_fst_cons, Hcall. cbn [fst snd].
  rewrite (IH _ _ Hw'). rewrite imap_cons. f_equal.
  - do 2 f_equal. destruct (Z.leb_spec remaining 0); lia.
  - apply imap_ext. intros k t' _. cbn [compose]. do 2 f_equal.
    destruct (Z.leb_spec remaining 0); lia.
Qed.

(** X2.  The budget of a window.  After a first call on a cold store, the
    [k]-th call of the window (counting from 0) returns
    [max (count - 1 - k) (min 0 (count - 1))] as remaining, that is
    [count - 1], ..., 1, 0, 0, ... for a positive count, together with the
    seconds left until the reset time fixed by the first call. *)
Theorem ratelimit_window_budget prefix count duration t0 ts (s : TTL.store) :
  0 ≤ t0 →
  TTL.read t0 s (prefix +:+ "$c") = PNone →
  TTL.read t0 s (prefix +:+ "$r") = PNone →
  Forall (λ t, t0 ≤ t < t0 + duration) ts →
  (calls prefix count duration (t0 :: ts) s).*1
  = imap (λ k t, Ok (Z.max (count - 1 - Z.of_nat k) (Z.min 0 (count - 1)),
                     t0 + duration - t)) (t0 :: ts).
Proof.
  intros H0 Hc Hr Hts.
  pose proof (window_state_cold prefix t0 count duration s) as Hw.
  rewrite calls_fst_cons, ratelimit_cold by (by rewrite ?Hc, ?Hr).
  cbn [fst snd]. rewrite imap_cons. f_equal.
  - do 2 f_equal; lia.
  - destruct ts as [|t ts']; [done|].
    assert (0 < duration) by (apply Forall_cons in Hts as [? _]; lia).
    rewrite (calls_closed_form prefix (t0 + duration) count duration (t :: ts')
               ltac:(lia) ltac:(eapply Forall_impl; [exact Hts|]; cbn; lia)
               _ _ Hw).
    apply imap_ext. intros k t' _. by cbn [compose].
Qed.

Lemma ratelimit_window_budget_witness :
  (calls "ip:1" 2 60 [100; 101; 130; 159] (∅ : TTL.store)).*1
  = imap (λ k t, Ok (Z.max (2 - 1 - Z.of_nat k) (Z.min 0 (2 - 1)),
                     100 + 60 - t)) [100; 101; 130; 159].
Proof.
  apply (ratelimit_window_budget "ip:1" 2 60 100 [101; 130; 159] ∅);
    [lia | reflexivity | reflexivity | repeat constructor; lia].
Defined.

(** X3.  Once the reset time of a window is reached its two keys have
    expired, and the next call opens a new window: it returns
    [(count - 1, duration)] and stores the new reset time [now + duration]. *)
Theorem ratelimit_after_expiry prefix reset_at remaining now count duration
    (s : TTL.store) :
  window_state prefix reset_at remaining s →
  reset_at ≤ now →
  ∃ s', ratelimit now prefix count duration s = (Ok (count - 1, duration), s')
        ∧ window_state prefix (now + duration) (count - 1) s'.
Proof.
  intros [Hc Hr] Hle.
  assert (TTL.read now s (prefix +:+ "$c") = PNone) as Hrc.
  { unfold TTL.read. rewrite Hc. by destruct (Z.ltb_spec now reset_at); [lia|]. }
  assert (TTL.read now s (prefix +:+ "$r") = PNone) as Hrr.
  { unfold TTL.read. rewrite Hr. by destruct (Z.ltb_spec now reset_at); [lia|]. }
  eexists. split.
  - apply ratelimit_cold; by rewrite ?Hrc, ?Hrr.
  - apply window_state_cold.
Qed.

Lemma ratelimit_after_expiry_witness :
  let s : TTL.store :=
    <["ip:1$c" := (PInt 0, 160)]> {["ip:1$r" := (PInt 160, 160)]} in
  ∃ s', ratelimit 160 "ip:1" 3 60 s = (Ok (3 - 1, 60), s')
        ∧ window_state "ip:1" (160 + 60) (3 - 1) s'.
Proof.
  intros s.
  apply (ratelimit_after_expiry "ip:1" 160 0 160 3 60 s); [|lia].
  split; reflexivity.
Defined.

(** X4.  A counter key that outlives its reset key: when the counter reads a
    non-zero integer and the reset key reads [None], [int(resetting)] raises
    [TypeError] and nothing is written. *)
Theorem ratelimit_missing_reset_key now prefix count duration (s : TTL.store)
    stored :
  TTL.read now s (prefix +:+ "$c") = PInt stored → stored ≠ 0 →
  TTL.read now s (prefix +:+ "$r") = PNone →
  ratelimit now prefix count duration s = (Raise TypeError, s).
Proof.
  intros Hc Hnz Hr. unfold ratelimit, bind. cbn. rewrite Hc, Hr. cbn.
  by destruct (Z.eqb_spec stored 0).
Qed.

Lemma ratelimit_missing_reset_key_witness :
  ratelimit 100 "ip:1" 3 60 ({["ip:1$c" := (PInt 2, 160)]} : TTL.store)
  = (Raise TypeError, {["ip:1$c" := (PInt 2, 160)]}).
Proof.
  apply (ratelimit_missing_reset_key 100 "ip:1" 3 60 _ 2); [reflexivity | lia | reflexivity].
Defined.

(** ** [CacheQuery.get] *)

Section GetTTL.
Implicit Types (s : TTL.store) (table : list entity) (log : list query).

Lemma read_insert_eq now s k v expiry :
  now < expiry → TTL.read now (<[k := (v, expiry)]> s) k = v.
Proof.
  intros Hlt. unfold TTL.read. rewrite lookup_insert_eq.
  by destruct (Z.ltb_spec now expiry); [|lia].
Qed.

Lemma read_insert_ne now s k k' v expiry :
  k ≠ k' → TTL.read now (<[k := (v, expiry)]> s) k' = TTL.read now s k'.
Proof. intros Hne. unfold TTL.read. by rewrite lookup_insert_ne. Qed.

Lemma get_hit now m i s table log :
  truthy (TTL.read now s (get_key m i)) = true →
  get now m i (Session s table log)
  = (Ok (TTL.read now s (get_key m i)), Session s table log).
Proof.
  intros Hhit. unfold get, bind, on_cache. cbn. by rewrite Hhit.
Qed.

Lemma get_miss now m i s table log :
  truthy (TTL.read now s (get_key m i)) = false →
  get now m i (Session s table log)
  = match filter (λ e, has_ident (primary_key m) i e) table with
    | e :: _ =>
        (Ok (PObj e),
         Session (<[get_key m i := (PObj e, now + 86400)]> s) table
           (log ++ [QueryGet i]))
    | [] => (Ok PNone, Session s table (log ++ [QueryGet i]))
    end.
Proof.
  intros Hmiss. unfold get, bind, on_cache. cbn. rewrite Hmiss. cbn.
  by destruct (filter _ table).
Qed.

(** X5.  A miss that finds the row: [get] runs one query, returns the row
    and caches it for a day; any [get] of the same id before the day is over
    returns that object from the cache and runs no query. *)
Theorem get_miss_then_hit now m i s table log e rest :
  truthy (TTL.read now s (get_key m i)) = false →
  filter (λ e, has_ident (primary_key m) i e) table = e :: rest →
  let w := Session (<[get_key m i := (PObj e, now + 86400)]> s) table
             (log ++ [QueryGet i]) in
  get now m i (Session s table log) = (Ok (PObj e), w)
  ∧ ∀ later, later < now + 86400 → get later m i w = (Ok (PObj e), w).
Proof.
  intros Hmiss Hrow w. split.
  - by rewrite get_miss, Hrow.
  - intros later Hlater. subst w.
    rewrite get_hit; by rewrite read_insert_eq.
Qed.

Lemma get_miss_then_hit_witness :
  let m := Mapper "zq_topic" None ["id"] in
  let e := Entity (λ _, 7) in
  let w := Session (<[get_key m (Scalar 7) := (PObj e, 100 + 86400)]> ∅) [e]
             ([] ++ [QueryGet (Scalar 7)]) in
  get 100 m (Scalar 7) (Session (∅ : TTL.store) [e] []) = (Ok (PObj e), w)
  ∧ ∀ later, later < 100 + 86400 → get later m (Scalar 7) w = (Ok (PObj e), w).
Proof.
  intros m e w.
  apply (get_miss_then_hit 100 m (Scalar 7) ∅ [e] [] e []); reflexivity.
Defined.

(** X6.  No negative caching: when no row has the id, [get] returns [None]
    and leaves the cache as it was, so the same [get] repeated runs the query
    again. *)
Theorem get_not_found_not_cached now later m i s table log :
  truthy (TTL.read now s (get_key m i)) = false →
  truthy (TTL.read later s (get_key m i)) = false →
  filter (λ e, has_ident (primary_key m) i e) table = [] →
  get now m i (Session s table log)
  = (Ok PNone, Session s table (log ++ [QueryGet i]))
  ∧ get later m i (Session s table (log ++ [QueryGet i]))
    = (Ok PNone, Session s table (log ++ [QueryGet i; QueryGet i])).
Proof.
  intros Hmiss Hmiss' Hrow.
  rewrite !get_miss, Hrow by done. by rewrite <- app_assoc.
Qed.

Lemma get_not_found_not_cached_witness :
  let m := Mapper "zq_topic" None ["id"] in
  get 100 m (Scalar 7) (Session (∅ : TTL.store) [] [])
  = (Ok PNone, Session ∅ [] ([] ++ [QueryGet (Scalar 7)]))
  ∧ get 101 m (Scalar 7) (Session (∅ : TTL.store) [] ([] ++ [QueryGet (Scalar 7)]))
    = (Ok PNone, Session ∅ [] ([] ++ [QueryGet (Scalar 7); QueryGet (Scalar 7)])).
Proof.
  intros m.
  apply (get_not_found_not_cached 100 101 m (Scalar 7) ∅ [] []); reflexivity.
Defined.

(** X7.  Refresh on update: after [receive_after_update] a [get] of the
    object's primary key, within a day, returns the updated object from the
    cache without a query, whatever was cached before and whatever the table
    holds.  The key is the one of the tuple of primary key values, and for a
    one-column key also the one of the scalar. *)
Theorem update_then_get now later m target s table log :
  later < now + 86400 →
  ∃ s',
    receive_after_update now m target s = (Ok tt, s')
    ∧ get later m (Tuple (getattr target <$> primary_key m)) (Session s' table log)
      = (Ok (PObj target), Session s' table log)
    ∧ ∀ pk, primary_key m = [pk] →
        get later m (Scalar (getattr target pk)) (Session s' table log)
        = (Ok (PObj target), Session s' table log).
Proof.
  intros Hlater. eexists. split; [reflexivity|].
  change (CACHE_TIMES !!! "get") with 86400.
  split.
  - rewrite get_hit; rewrite <- unique_key_tuple, read_insert_eq; done.
  - intros pk Hpk. rewrite Hpk.
    rewrite get_hit; rewrite <- unique_key_single, read_insert_eq; done.
Qed.

Lemma update_then_get_witness :
  let m := Mapper "zq_topic" None ["id"] in
  let old := Entity (λ _, 7) in
  let new := Entity (λ k, if decide (k = "id") then 7 else 8) in
  let s : TTL.store := {["db:get:zq_topic:7" := (PObj old, 150)]} in
  ∃ s',
    receive_after_update 100 m new s = (Ok tt, s')
    ∧ get 101 m (Tuple (getattr new <$> primary_key m)) (Session s' [old] [])
      = (Ok (PObj new), Session s' [old] [])
    ∧ ∀ pk, primary_key m = [pk] →
        get 101 m (Scalar (getattr new pk)) (Session s' [old] [])
        = (Ok (PObj new), Session s' [old] []).
Proof.
  intros m old new s.
  apply (update_then_get 100 101 m new s [old] []). lia.
Defined.

(** X8.  After [receive_after_delete] the object is no longer served from
    the cache: a [get] of its primary key goes to the database and returns
    what the table has. *)
Theorem delete_then_get now m target (s : TTL.store) table log :
  let i := Tuple (getattr target <$> primary_key m) in
  ∃ s',
    receive_after_delete m target s = (Ok tt, s')
    ∧ TTL.read now s' (get_key m i) = PNone
    ∧ issued (get now m i (Session s' table log)).2 = log ++ [QueryGet i]
    ∧ (get now m i (Session s' table log)).1
      = Ok match filter (λ e, has_ident (primary_key m) i e) table with
           | e :: _ => PObj e
           | [] => PNone
           end.
Proof.
  intros i. eexists. split; [reflexivity|]. cbn [foldr].
  assert (TTL.read now
            (delete (_unique_key m target (primary_key m))
               (delete (generate_cache_prefix m "count") s)) (get_key m i)
          = PNone) as Hread.
  { unfold TTL.read, i. rewrite <- unique_key_tuple. by rewrite lookup_delete_eq. }
  split; [exact Hread|].
  rewrite get_miss by (by rewrite Hread).
  split; by destruct (filter _ table).
Qed.

End GetTTL.

(** ** [CacheQuery.filter_first] *)

Section FilterFirstTTL.
Implicit Types (s : TTL.store) (table : list entity) (log : list query).

(** X9.  [filter_first] caches a match for 300 seconds and no longer: a
    second call before the 300 seconds are over returns the cached object
    without a query; a call from then on runs the query again. *)
Theorem filter_first_cached_300 now m kwargs s table log e rest :
  let key := filter_key (generate_cache_prefix m "ff") kwargs in
  truthy (TTL.read now s key) = false →
  filter (λ e, matches kwargs e) table = e :: rest →
  let w := Session (<[key := (PObj e, now + 300)]> s) table
             (log ++ [QueryFirst kwargs]) in
  filter_first now m kwargs (Session s table log) = (Ok (PObj e), w)
  ∧ (∀ later, later < now + 300 →
       filter_first later m kwargs w = (Ok (PObj e), w))
  ∧ (∀ later, now + 300 ≤ later →
       issued (filter_first later m kwargs w).2
       = log ++ [QueryFirst kwargs; QueryFirst kwargs]).
Proof.
  intros key Hmiss Hrow w.
  assert (∀ t s' log',
    truthy (TTL.read t s' key) = false →
    filter_first t m kwargs (Session s' table log')
    = (Ok (PObj e),
       Session (<[key := (PObj e, t + 300)]> s') table
         (log' ++ [QueryFirst kwargs]))) as Hquery.
  { intros t s' log' Hm. unfold filter_first, bind, on_cache. cbn.
    fold key. rewrite Hm. cbn. by rewrite Hrow. }
  split; [by apply Hquery|]. split.
  - intros later Hlater. subst w.
    unfold filter_first, bind, on_cache. cbn. fold key.
    by rewrite read_insert_eq.
  - intros later Hlater. subst w. rewrite Hquery.
    + cbn. by rewrite <- app_assoc.
    + unfold TTL.read. rewrite lookup_insert_eq.
      by destruct (Z.ltb_spec later (now + 300)); [lia|].
Qed.

Lemma filter_first_cached_300_witness :
  let m := Mapper "zq_user" None ["id"] in
  let e := Entity (λ _, 7) in
  let key := filter_key (generate_cache_prefix m "ff") [("id", 7)] in
  let w := Session (<[key := (PObj e, 100 + 300)]> (∅ : TTL.store)) [e]
             ([] ++ [QueryFirst [("id", 7)]]) in
  filter_first 100 m [("id", 7)] (Session ∅ [e] []) = (Ok (PObj e), w)
  ∧ (∀ later, later < 100 + 300 →
       filter_first later m [("id", 7)] w = (Ok (PObj e), w))
  ∧ (∀ later, 100 + 300 ≤ later →
       issued (filter_first later m [("id", 7)] w).2
       = [] ++ [QueryFirst [("id", 7)]; QueryFirst [("id", 7)]]).
Proof.
  intros m e key w.
  apply (filter_first_cached_300 100 m [("id", 7)] ∅ [e] [] e []); reflexivity.
Defined.

(** X10.  [filter_first] does not cache the absence of a match: it returns
    [None], runs one query and leaves the cache as it was. *)
Theorem filter_first_none_not_cached now m kwargs s table log :
  truthy (TTL.read now s (filter_key (generate_cache_prefix m "ff") kwargs))
  = false →
  filter (λ e, matches kwargs e) table = [] →
  filter_first now m kwargs (Session s table log)
  = (Ok PNone, Session s table (log ++ [QueryFirst kwargs])).
Proof.
  intros Hmiss Hrow. unfold filter_first, bind, on_cache. cbn.
  rewrite Hmiss. cbn. by rewrite Hrow.
Qed.

Lemma filter_first_none_not_cached_witness :
  filter_first 100 (Mapper "zq_user" None ["id"]) [("id", 7)]
    (Session (∅ : TTL.store) [] [])
  = (Ok PNone, Session ∅ [] ([] ++ [QueryFirst [("id", 7)]])).
Proof.
  apply (filter_first_none_not_cached 100 (Mapper "zq_user" None ["id"])
           [("id", 7)] ∅ [] []); reflexivity.
Defined.

End FilterFirstTTL.

(** ** The listeners and the counts *)

Section ListenersTTL.
Implicit Types (s : TTL.store) (table : list entity) (log : list query).

(** The keys of two different operations differ, whatever the classes. *)
Lemma prefix_get_ne_count m m' x :
  generate_cache_prefix m "get" +:+ x ≠ generate_cache_prefix m' "count".
Proof.
  unfold generate_cache_prefix.
  destruct (cache_version m), (cache_version m'); cbn; discriminate.
Qed.

Lemma prefix_get_ne_ff m m' x y :
  generate_cache_prefix m "get" +:+ x ≠ generate_cache_prefix m' "ff" +:+ y.
Proof.
  unfold generate_cache_prefix.
  destruct (cache_version m), (cache_version m'); cbn; discriminate.
Qed.

Lemma prefix_get_ne_fc m m' x y :
  generate_cache_prefix m "get" +:+ x ≠ generate_cache_prefix m' "fc" +:+ y.
Proof.
  unfold generate_cache_prefix.
  destruct (cache_version m), (cache_version m'); cbn; discriminate.
Qed.

Lemma prefix_count_ne_ff m m' y :
  generate_cache_prefix m "count" ≠ generate_cache_prefix m' "ff" +:+ y.
Proof.
  unfold generate_cache_prefix.
  destruct (cache_version m), (cache_version m'); cbn; discriminate.
Qed.

Lemma prefix_count_ne_fc m m' y :
  generate_cache_prefix m "count" ≠ generate_cache_prefix m' "fc" +:+ y.
Proof.
  unfold generate_cache_prefix.
  destruct (cache_version m), (cache_version m'); cbn; discriminate.
Qed.

Lemma prefix_ff_ne_fc m m' x y :
  generate_cache_prefix m "ff" +:+ x ≠ generate_cache_prefix m' "fc" +:+ y.
Proof.
  unfold generate_cache_prefix.
  destruct (cache_version m), (cache_version m'); cbn; discriminate.
Qed.

(** X11.  Keys do not cross operations: a [get] key, a [count] key, a
    [filter_first] key and a [filter_count] key are pairwise different, for
    any classes, ids and keyword arguments. *)
Theorem keys_of_operations_differ m1 m2 m3 m4 i kw3 kw4 :
  let get_k := get_key m1 i in
  let count_k := generate_cache_prefix m2 "count" in
  let ff_k := filter_key (generate_cache_prefix m3 "ff") kw3 in
  let fc_k := filter_key (generate_cache_prefix m4 "fc") kw4 in
  get_k ≠ count_k ∧ get_k ≠ ff_k ∧ get_k ≠ fc_k
  ∧ count_k ≠ ff_k ∧ count_k ≠ fc_k ∧ ff_k ≠ fc_k.
Proof.
  intros get_k count_k ff_k fc_k. subst get_k count_k ff_k fc_k.
  unfold get_key, filter_key.
  repeat split.
  - apply prefix_get_ne_count.
  - apply prefix_get_ne_ff.
  - apply prefix_get_ne_fc.
  - apply prefix_count_ne_ff.
  - apply prefix_count_ne_fc.
  - apply prefix_ff_ne_fc.
Qed.

Lemma inc_lookup_ne now k k' s :
  k ≠ k' → (TTL.inc now k s).2 !! k' = s !! k'.
Proof.
  intros Hne. unfold TTL.inc.
  destruct (s !! k) as [[[|z|e] expiry]|]; cbn;
    try destruct (now <? expiry); cbn; by rewrite ?lookup_insert_ne.
Qed.

(** X12.  The listeners never touch the filter caches: after an insert, an
    update or a delete every [filter_first] and [filter_count] entry is what
    it was, so a cached filtered count is still served, without a query,
    until it expires. *)
Theorem listeners_keep_filter_entries now m target s m' kwargs :
  let ff_k := filter_key (generate_cache_prefix m' "ff") kwargs in
  let fc_k := filter_key (generate_cache_prefix m' "fc") kwargs in
  ∀ s',
    s' = (receive_after_insert now m target s).2
    ∨ s' = (receive_after_update now m target s).2
    ∨ s' = (receive_after_delete m target s).2 →
    s' !! ff_k = s !! ff_k ∧ s' !! fc_k = s !! fc_k
    ∧ ∀ later n table log, TTL.read later s fc_k = PInt n → n ≠ 0 → kwargs ≠ [] →
        filter_count later m' kwargs (Session s' table log)
        = (Ok (PInt n), Session s' table log).
Proof.
  intros ff_k fc_k s' Hs'.
  assert (s' !! ff_k = s !! ff_k ∧ s' !! fc_k = s !! fc_k) as [Hff Hfc].
  { destruct Hs' as [-> | [-> | ->]].
    - unfold receive_after_insert, bind. cbn.
      destruct (TTL.inc now (generate_cache_prefix m "count") s) as [[v|e] s1] eqn:E;
        cbn; replace s1 with (TTL.inc now (generate_cache_prefix m "count") s).2
          by (by rewrite E);
        split; apply inc_lookup_ne;
          [apply prefix_count_ne_ff | apply prefix_count_ne_fc
          | apply prefix_count_ne_ff | apply prefix_count_ne_fc].
    - cbn. split; apply lookup_insert_ne;
        [apply prefix_get_ne_ff | apply prefix_get_ne_fc].
    - cbn. rewrite !delete_pair_lookup.
      split; rewrite decide_False; try done; intros [H|H]; symmetry in H; revert H.
      + apply prefix_get_ne_ff.
      + apply prefix_count_ne_ff.
      + apply prefix_get_ne_fc.
      + apply prefix_count_ne_fc. }
  split; [done|]. split; [done|].
  intros later n table log Hread Hnz Hkw.
  destruct kwargs as [|kv kwargs]; [done|].
  unfold filter_count, bind, on_cache. cbn [cache rows issued cache_get
    TTL.backend TTL.get ret].
  fold fc_k.
  replace (TTL.read later s' fc_k) with (PInt n)
    by (unfold TTL.read in *; by rewrite Hfc).
  cbn. by destruct (Z.eqb_spec n 0).
Qed.

Lemma listeners_keep_filter_entries_witness :
  let m := Mapper "zq_topic" None ["id"] in
  let target := Entity (λ _, 7) in
  let fc_k := filter_key (generate_cache_prefix m "fc") [("cafe_id", 7)] in
  let s : TTL.store := {[fc_k := (PInt 5, 300)]} in
  let s' := (receive_after_delete m target s).2 in
  filter_count 100 m [("cafe_id", 7)] (Session s' [] [])
  = (Ok (PInt 5), Session s' [] []).
Proof.
  intros m target fc_k s s'.
  apply (listeners_keep_filter_entries 100 m target s m [("cafe_id", 7)] s');
    [right; right; reflexivity | reflexivity | lia | discriminate].
Defined.

(** X13.  The insert listener and the count.  When the count of the class is
    cached, the count that follows the listener is the cached count plus one
    and runs no query; when it is not cached, the count that follows is 1
    whatever the number of rows, until that entry expires. *)
Theorem insert_then_count now m target s table log :
  let count_key := generate_cache_prefix m "count" in
  let s' := (receive_after_insert now m target s).2 in
  (∀ n, TTL.read now s count_key = PInt n →
     receive_after_insert now m target s = (Ok tt, s')
     ∧ filter_count now m [] (Session s' table log)
       = (Ok (PInt (n + 1)), Session s' table log))
  ∧ (TTL.read now s count_key = PNone →
     receive_after_insert now m target s = (Ok tt, s')
     ∧ filter_count now m [] (Session s' table log)
       = (Ok (PInt 1), Session s' table log)).
Proof.
  intros count_key s'. subst s'.
  unfold receive_after_insert, filter_count, bind, on_cache.
  cbn [cache rows issued cache_get cache_inc TTL.backend TTL.get ret].
  fold count_key. unfold TTL.read, TTL.inc. split.
  - intros n Hread.
    destruct (s !! count_key) as [[v expiry]|]; [|done].
    destruct (Z.ltb_spec now expiry); [|done]. subst v. cbn.
    rewrite lookup_insert_eq.
    by destruct (Z.ltb_spec now expiry); [|lia].
  - intros Hread.
    assert ((now <? now + TTL.default_timeout) = true) as Hlive
      by (apply Z.ltb_lt; unfold TTL.default_timeout; lia).
    destruct (s !! count_key) as [[v expiry]|]; cbn.
    + destruct (Z.ltb_spec now expiry).
      * subst v. cbn. by rewrite lookup_insert_eq, Hlive.
      * destruct v; cbn; by rewrite lookup_insert_eq, Hlive.
    + by rewrite lookup_insert_eq, Hlive.
Qed.

Lemma insert_then_count_witness :
  let m := Mapper "zq_topic" None ["id"] in
  let target := Entity (λ _, 7) in
  let s : TTL.store := {["db:count:zq_topic:" := (PInt 41, 500)]} in
  let s' := (receive_after_insert 100 m target s).2 in
  (receive_after_insert 100 m target s = (Ok tt, s')
   ∧ filter_count 100 m [] (Session s' [target] [])
     = (Ok (PInt (41 + 1)), Session s' [target] []))
  ∧ (receive_after_insert 100 m target ∅
     = (Ok tt, (receive_after_insert 100 m target ∅).2)
     ∧ filter_count 100 m []
         (Session (receive_after_insert 100 m target ∅).2 [target; target] [])
       = (Ok (PInt 1),
          Session (receive_after_insert 100 m target ∅).2 [target; target] [])).
Proof.
  intros m target s s'. split.
  - apply (proj1 (insert_then_count 100 m target s [target] []) 41). reflexivity.
  - apply (proj2 (insert_then_count 100 m target ∅ [target; target] [])).
    reflexivity.
Defined.

End ListenersTTL.

(** ** Batch get and [lstrip] *)

Section Lstrip.

Lemma append_cons a (p s : string) : String a p +:+ s = String a (p +:+ s).
Proof. reflexivity. Qed.

Lemma lstrip_cons chars a rest :
  lstrip chars (String a rest)
  = if bool_decide (a ∈ String.list_ascii_of_string chars)
    then lstrip chars rest else String a rest.
Proof. reflexivity. Qed.

Lemma lstrip_app chars p s :
  (∀ a, a ∈ String.list_ascii_of_string p →
        a ∈ String.list_ascii_of_string chars) →
  lstrip chars (p +:+ s) = lstrip chars s.
Proof.
  induction p as [|a p IH]; intros Hin; [done|].
  rewrite append_cons, lstrip_cons.
  rewrite bool_decide_eq_true_2 by (apply Hin; cbn; left).
  apply IH. intros b Hb. apply Hin. cbn. by right.
Qed.



Lemma lstrip_head_notin chars a rest :
  a ∉ String.list_ascii_of_string chars →
  lstrip chars (String a rest) = String a rest.
Proof. intros Hnin. by rewrite lstrip_cons, bool_decide_eq_false_2. Qed.

Lemma pretty_N_char_numeral x rest :
  numeral_head (String (pretty_N_char x) rest).
Proof.
  exists (pretty_N_char x), rest. split; [done|].
  unfold pretty_N_char.
  repeat match goal with
         | |- context [match ?p with _ => _ end] => destruct p
         end; cbn; repeat constructor.
Qed.

Lemma pretty_N_go_numeral x s :
  numeral_head s → numeral_head (pretty_N_go x s).
Proof.
  revert s. induction (N.lt_wf_0 x) as [x _ IH]; intros s Hs.
  destruct (decide (x = 0%N)) as [->|Hx]; [by rewrite pretty_N_go_0|].
  rewrite pretty_N_go_step by lia.
  apply IH; [apply N.div_lt; lia | apply pretty_N_char_numeral].
Qed.

Lemma pretty_N_numeral (x : N) : numeral_head (pretty x).
Proof.
  unfold pretty, pretty_N. case_decide as Hx.
  - eexists _, _. split; [reflexivity|]. cbn. repeat constructor.
  - rewrite pretty_N_go_step by lia.
    apply pretty_N_go_numeral, pretty_N_char_numeral.
Qed.

Lemma str_numeral (i : Z) : numeral_head (str i).
Proof.
  unfold str, pretty, pretty_Z. destruct i as [|p|p].
  - eexists _, _. split; [reflexivity|]. cbn. repeat constructor.
  - apply pretty_N_numeral.
  - eexists _, _. split; [reflexivity|]. cbn. repeat constructor.
Qed.

(** A prefix without digits and without [-]: stripping a key gives back the
    numeral. *)
Lemma lstrip_plain_prefix prefix i :
  (∀ a, a ∈ String.list_ascii_of_string "-0123456789" →
        a ∉ String.list_ascii_of_string prefix) →
  lstrip prefix (prefix +:+ str i) = str i.
Proof.
  intros Hplain. rewrite lstrip_app by done.
  destruct (str_numeral i) as (a & rest & -> & Ha).
  apply lstrip_head_notin. by apply Hplain.
Qed.

End Lstrip.

Section BatchMore.
Implicit Types (s : TTL.store) (table : list entity) (log : list query).








End BatchMore.

(** An empty batch returns the empty list, for every class and every cache
    backend, and touches neither the cache nor the database. *)
Lemma get_many_empty {C : Type} `{!CacheBackend C} now m clean (w : session C) :
  get_many now m [] clean w = (Ok [], w).
Proof. by destruct clean, w. Qed.

(** ** The cache unreachable *)



(** ** What a batch get leaves in the cache *)

Section BatchWarm.
Implicit Types (s : TTL.store) (table : list entity) (log : list query).

Lemma store_missing_cache_lookup prefix pk missing rv i :
  (store_missing prefix pk missing rv).1 !! (prefix +:+ str i)
  = PObj <$> last (filter (λ e, getattr e pk = i) missing).
Proof.
  induction missing as [|item missing IH] using rev_ind; [done|].
  rewrite store_missing_snoc, filter_app, last_app. cbn [fst].
  rewrite filter_cons, filter_nil.
  destruct (decide (getattr item pk = i)) as [<-|Hne].
  - cbn. by rewrite lookup_insert_eq.
  - cbn. rewrite lookup_insert_ne; [by rewrite IH|].
    intros Heq. apply Hne.
    apply (inj (String.append prefix)) in Heq. by apply (inj pretty).
Qed.

Lemma get_dict_final now m pk idents s table log :
  primary_key m = [pk] →
  let prefix := generate_cache_prefix m "get" in
  let missed := missed_in now s prefix idents in
  ∃ rv,
    (get_dict now m idents (Session s table log)).2
    = Session
        (if decide (missed = ∅) then s
         else ((λ v, (v, now + 86400))
                 <$> (store_missing prefix pk
                        (filter (λ e, getattr e pk ∈ missed) table) rv).1) ∪ s)
        table
        (log ++ if decide (missed = ∅) then [] else [QueryIn pk missed]).
Proof.
  intros Hpk prefix missed. unfold get_dict.
  destruct (decide (idents = [])) as [->|Hids].
  { exists ∅. cbn. by rewrite app_nil_r. }
  rewrite bool_decide_eq_false_2 by done.
  rewrite Hpk. fold prefix.
  unfold bind at 1. unfold on_cache at 1.
  cbn [cache rows issued cache_get_dict TTL.backend TTL.get_dict].
  rewrite list_to_set_elements_L.
  unfold bind at 1.
  rewrite (missed_idents_eval prefix _ (λ i, TTL.read now s (prefix +:+ str i))).
  2:{ intros i Hi. rewrite get_dict_lookup. rewrite decide_True; [done|].
      apply elem_of_list_to_set, list_elem_of_fmap. eauto. }
  fold (missed_in now s prefix idents). fold missed.
  set (rv0 := strip_keys prefix _). exists rv0.
  destruct (decide (missed = ∅)) as [Hempty|Hne].
  - rewrite bool_decide_eq_true_2 by done. cbn. by rewrite app_nil_r.
  - rewrite bool_decide_eq_false_2 by done.
    unfold bind at 1. cbn [query_in run_query cache rows issued].
    destruct (store_missing prefix pk _ rv0) as [to_cache rv] eqn:Hstore.
    unfold bind, on_cache. cbn. done.
Qed.

Lemma read_union_fresh now s (d : gmap string pyval) ttl k :
  0 < ttl →
  TTL.read now (((λ v, (v, now + ttl)) <$> d) ∪ s) k
  = match d !! k with
    | Some v => v
    | None => TTL.read now s k
    end.
Proof.
  intros Httl. unfold TTL.read. rewrite lookup_union, lookup_fmap.
  destruct (d !! k) as [v|]; cbn.
  - destruct (s !! k); cbn; by destruct (Z.ltb_spec now (now + ttl)); [|lia].
  - by destruct (s !! k).
Qed.

Lemma get_dict_warms now m pk idents s table log i :
  primary_key m = [pk] →
  let prefix := generate_cache_prefix m "get" in
  i ∈ idents →
  TTL.read now (cache (get_dict now m idents (Session s table log)).2)
    (prefix +:+ str i)
  = resolved now s prefix pk table i.
Proof.
  intros Hpk prefix Hi.
  destruct (get_dict_final now m pk idents s table log Hpk) as [rv ->].
  fold prefix. cbn [cache]. unfold resolved.
  set (missed := missed_in now s prefix idents).
  assert (i ∉ missed → TTL.read now s (prefix +:+ str i) ≠ PNone) as Hhit.
  { intros Hnin Hread. apply Hnin. by apply elem_of_missed_in. }
  destruct (decide (missed = ∅)) as [Hempty|Hne].
  - destruct (TTL.read now s (prefix +:+ str i)) eqn:E; try done.
    exfalso. apply Hhit; [|done]. rewrite Hempty. apply not_elem_of_empty.
  - rewrite read_union_fresh by lia.
    rewrite store_missing_cache_lookup, filter_missing.
    destruct (decide (i ∈ missed)) as [Hin|Hnin].
    + apply elem_of_missed_in in Hin as [_ ->].
      by destruct (last _).
    + cbn. destruct (TTL.read now s (prefix +:+ str i)) eqn:E; try done.
      exfalso. by apply Hhit.
Qed.

(** X17.  A batch get warms the cache: after [get_many], every requested id
    reads from the cache what the call resolved it to (the value that was
    cached, or the row that was fetched).  So the same batch repeated at once
    asks the database only for the ids that have no row, and runs no query
    when every id resolved. *)
Theorem get_many_warms_cache now m pk idents clean clean' s table log :
  primary_key m = [pk] →
  let prefix := generate_cache_prefix m "get" in
  let w := (get_many now m idents clean (Session s table log)).2 in
  (∀ i, i ∈ idents →
     TTL.read now (cache w) (prefix +:+ str i) = resolved now s prefix pk table i)
  ∧ (Forall (λ i, resolved now s prefix pk table i ≠ PNone) idents →
     (get_many now m idents clean' w).2 = w).
Proof.
  intros Hpk prefix w.
  assert (∀ i, i ∈ idents →
    TTL.read now (cache w) (prefix +:+ str i) = resolved now s prefix pk table i)
    as Hwarm.
  { intros i Hi. subst w. rewrite get_many_state. by apply get_dict_warms. }
  split; [exact Hwarm|].
  intros Hall. rewrite get_many_state.
  destruct w as [s1 table1 log1] eqn:Hw.
  destruct (get_dict_final now m pk idents s1 table1 log1 Hpk) as [rv ->].
  fold prefix.
  assert (missed_in now s1 prefix idents = ∅) as ->.
  { apply missed_in_empty. apply Forall_forall. intros i Hi.
    change s1 with (cache (Session s1 table1 log1)).
    rewrite (Hwarm i Hi). by eapply Forall_forall in Hall. }
  rewrite !decide_True by done. by rewrite app_nil_r.
Qed.

Lemma get_many_warms_cache_witness :
  let m := Mapper "zq_topic" None ["id"] in
  let e (i : Z) := Entity (λ _, i) in
  let table := [e 1; e 2; e 3] in
  let w := (get_many 100 m [3; 1] true (Session (∅ : TTL.store) table [])).2 in
  (get_many 100 m [3; 1] true w).2 = w.
Proof.
  intros m e table w.
  apply (get_many_warms_cache 100 m "id" [3; 1] true true ∅ table []);
    [reflexivity|].
  repeat constructor; discriminate.
Defined.

End BatchWarm.

(** ** The timeline *)

Section TimelineTTL.
Context (STATUS_OFFICIAL STATUS_VERIFIED : Z) (following : Z → gset Z).
Implicit Types (s : TTL.store) (topics cafes : list entity) (log : list query).

#[local] Instance newer_total : Total newer.
Proof. intros a b. unfold newer. lia. Qed.

#[local] Instance newer_trans : Transitive newer.
Proof. intros a b c. unfold newer. lia. Qed.

Lemma select_topic_ids_elem cafe_ids cursor count topics i :
  i ∈ select_topic_ids cafe_ids cursor count topics →
  (∃ t, t ∈ topics ∧ getattr t "id" = i ∧ getattr t "cafe_id" ∈ cafe_ids)
  ∧ (given cursor = true → i < default 0 cursor).
Proof.
  unfold select_topic_ids. intros Hi%subseteq_take.
  rewrite merge_sort_Permutation in Hi.
  apply list_elem_of_fmap in Hi as (t & -> & Ht).
  destruct (given cursor).
  - apply list_elem_of_filter in Ht as [Hlt Ht].
    apply list_elem_of_filter in Ht as [Hcafe Ht]. eauto.
  - apply list_elem_of_filter in Ht as [Hcafe Ht]. split; [eauto | done].
Qed.

Lemma select_topic_ids_sorted cafe_ids cursor count topics :
  StronglySorted newer (select_topic_ids cafe_ids cursor count topics).
Proof.
  unfold select_topic_ids.
  set (l := merge_sort newer _).
  assert (StronglySorted newer l) as Hl
    by (apply StronglySorted_merge_sort; apply _).
  rewrite <- (take_drop count l) in Hl.
  by apply StronglySorted_app_1_l in Hl.
Qed.

Lemma select_topic_ids_length cafe_ids cursor count topics :
  (length (select_topic_ids cafe_ids cursor count topics) ≤ count)%nat.
Proof. unfold select_topic_ids. rewrite length_take. lia. Qed.

Lemma sorted_last_least (l : list Z) x i :
  StronglySorted newer l → last l = Some x → i ∈ l → x ≤ i.
Proof.
  intros Hl Hlast Hi. apply last_Some in Hlast as [l' ->].
  apply elem_of_app in Hi as [Hi|Hi%list_elem_of_singleton]; [|lia].
  apply (StronglySorted_app_1_elem_of newer l' [x] i x Hl Hi). by left.
Qed.

(** An id of the table resolves to an object with that id. *)
Lemma resolved_row now s prefix topics i :
  coherent now s prefix →
  (∃ t, t ∈ topics ∧ getattr t "id" = i) →
  ∃ e, resolved now s prefix "id" topics i = PObj e ∧ getattr e "id" = i.
Proof.
  intros Hco (t & Ht & Hid). unfold resolved. specialize (Hco i).
  destruct (TTL.read now s (prefix +:+ str i)) as [|z|e]; [|done|eauto].
  destruct (last (filter (λ e, getattr e "id" = i) topics)) as [e|] eqn:Hlast.
  - exists e. split; [done|].
    apply last_Some_elem_of, list_elem_of_filter in Hlast. tauto.
  - apply last_None in Hlast.
    assert (t ∈ filter (λ e, getattr e "id" = i) topics) as Hin
      by (by apply list_elem_of_filter).
    rewrite Hlast in Hin. by apply elem_of_nil in Hin.
Qed.

Lemma resolved_rows now s prefix topics ids :
  coherent now s prefix →
  (∀ i, i ∈ ids → ∃ t, t ∈ topics ∧ getattr t "id" = i) →
  filter (λ v, is_none v = false) (resolved now s prefix "id" topics <$> ids)
  = resolved now s prefix "id" topics <$> ids
  ∧ ids_of (resolved now s prefix "id" topics <$> ids) = ids.
Proof.
  intros Hco. induction ids as [|i ids IH]; intros Hrows; [done|].
  destruct (resolved_row now s prefix topics i Hco) as (e & He & Hid);
    [apply Hrows; by left|].
  destruct IH as [IH1 IH2]; [intros; apply Hrows; by right|].
  rewrite fmap_cons, He. split.
  - rewrite filter_cons_True by done. by rewrite IH1.
  - unfold ids_of in *. cbn. by rewrite IH2, Hid.
Qed.

Lemma get_timeline_topics_eval now m cafes cursor user_id count s topics log :
  primary_key m = ["id"] →
  let prefix := generate_cache_prefix m "get" in
  (∀ a, a ∈ String.list_ascii_of_string "-0123456789" →
        a ∉ String.list_ascii_of_string prefix) →
  coherent now s prefix →
  (0 < count)%nat →
  let cafe_ids :=
    if given user_id
    then get_user_timeline_cafe_ids STATUS_OFFICIAL following cafes
           (default 0 user_id)
    else get_public_timeline_cafe_ids STATUS_OFFICIAL STATUS_VERIFIED cafes in
  let ids := select_topic_ids cafe_ids cursor count topics in
  let page := resolved now s prefix "id" topics <$> ids in
  (get_timeline_topics STATUS_OFFICIAL STATUS_VERIFIED following
     now m cafes cursor user_id count (Session s topics log)).1
  = Page page (if (length ids <? count)%nat then 0 else default 0 (last ids))
  ∧ ids_of page = ids.
Proof.
  intros Hpk prefix Hplain Hco Hcount cafe_ids ids page.
  assert (∀ i, i ∈ ids → ∃ t, t ∈ topics ∧ getattr t "id" = i) as Hrows.
  { intros i Hi. apply select_topic_ids_elem in Hi as [(t & ? & ? & ?) _]. eauto. }
  destruct (resolved_rows now s prefix topics ids Hco Hrows) as [Hfilter Hids].
  split; [|done].
  unfold get_timeline_topics. cbn [rows]. fold cafe_ids ids.
  pose proof (get_many_in_order now m "id" ids s topics log Hpk
                ltac:(intros; by apply lstrip_plain_prefix)) as Hmany.
  fold prefix in Hmany. rewrite Hfilter in Hmany. fold page in Hmany.
  destruct (get_many now m ids true (Session s topics log)) as [r w'].
  cbn in Hmany. subst r. cbn [fst].
  assert (length page = length ids) as Hlen by (unfold page; by rewrite length_fmap).
  rewrite Hlen. destruct (length ids <? count)%nat eqn:Hshort; [done|].
  unfold page. rewrite fmap_last.
  destruct (last ids) as [i|] eqn:Hlast.
  - destruct (resolved_row now s prefix topics i Hco) as (e & He & Hid).
    { apply Hrows. by apply last_Some_elem_of. }
    cbn. rewrite He. by rewrite Hid.
  - apply last_None in Hlast. apply Nat.ltb_ge in Hshort.
    rewrite Hlast in Hshort. cbn in Hshort. lia.
Qed.

(** X18.  A page of the timeline.  For a [Topic] class whose primary key is
    [id] and whose [get] prefix has no digit and no minus sign, with a
    coherent cache (every cached topic is an object stored under the key of
    its own id) and a positive [count], [get_timeline_topics] returns the
    newest [count] topics of the cafes of the timeline (below the cursor when
    one is given), newest first, each from the cache or from the table; the
    next cursor is 0 when the page is short and the id of the last topic
    otherwise. *)
Theorem timeline_page now m cafes cursor user_id count s topics log :
  primary_key m = ["id"] →
  let prefix := generate_cache_prefix m "get" in
  (∀ a, a ∈ String.list_ascii_of_string "-0123456789" →
        a ∉ String.list_ascii_of_string prefix) →
  coherent now s prefix →
  (0 < count)%nat →
  let cafe_ids :=
    if given user_id
    then get_user_timeline_cafe_ids STATUS_OFFICIAL following cafes
           (default 0 user_id)
    else get_public_timeline_cafe_ids STATUS_OFFICIAL STATUS_VERIFIED cafes in
  ∃ page next,
    (get_timeline_topics STATUS_OFFICIAL STATUS_VERIFIED following
       now m cafes cursor user_id count (Session s topics log)).1
    = Page page next
    ∧ (length page ≤ count)%nat
    ∧ StronglySorted newer (ids_of page)
    ∧ (∀ i, i ∈ ids_of page →
         (∃ t, t ∈ topics ∧ getattr t "id" = i ∧ getattr t "cafe_id" ∈ cafe_ids)
         ∧ (given cursor = true → i < default 0 cursor))
    ∧ (∀ t, t ∈ topics → getattr t "cafe_id" ∈ cafe_ids →
         (given cursor = true → getattr t "id" < default 0 cursor) →
         getattr t "id" ∈ ids_of page
         ∨ (length page = count ∧ ∀ i, i ∈ ids_of page → getattr t "id" < i))
    ∧ next = (if (length page <? count)%nat then 0
              else default 0 (last (ids_of page))).
Proof.
  intros Hpk prefix Hplain Hco Hcount cafe_ids.
  destruct (get_timeline_topics_eval now m cafes cursor user_id count s topics
              log Hpk Hplain Hco Hcount) as [Hcall Hids].
  fold prefix cafe_ids in Hcall, Hids.
  set (ids := select_topic_ids cafe_ids cursor count topics) in *.
  set (page := resolved now s prefix "id" topics <$> ids) in *.
  assert (length page = length ids) as Hlen
    by (unfold page; by rewrite length_fmap).
  exists page, (if (length ids <? count)%nat then 0 else default 0 (last ids)).
  split; [exact Hcall|]. rewrite Hids, Hlen.
  split; [apply select_topic_ids_length|].
  split; [apply select_topic_ids_sorted|].
  split; [intros i Hi; by apply select_topic_ids_elem in Hi|].
  split; [|done].
  intros t Ht Hcafe Hcursor.
  set (q := (λ t, getattr t "id") <$>
              (if given cursor
               then filter (λ t, getattr t "id" < default 0 cursor)
                      (filter (λ t, getattr t "cafe_id" ∈ cafe_ids) topics)
               else filter (λ t, getattr t "cafe_id" ∈ cafe_ids) topics)).
  assert (getattr t "id" ∈ merge_sort newer q) as Hin.
  { rewrite merge_sort_Permutation. unfold q. apply list_elem_of_fmap.
    exists t. split; [done|].
    destruct (given cursor); repeat (apply list_elem_of_filter; split); auto. }
  assert (StronglySorted newer (merge_sort newer q)) as Hsorted
    by (apply StronglySorted_merge_sort; apply _).
  change ids with (take count (merge_sort newer q)).
  rewrite <- (take_drop count (merge_sort newer q)) in Hin, Hsorted.
  destruct (decide (getattr t "id" ∈ take count (merge_sort newer q)))
    as [Hpage|Hnpage]; [by left|].
  apply elem_of_app in Hin as [Hin|Hin]; [done|]. right.
  split.
  - rewrite length_take. apply list_elem_of_lookup in Hin as [k Hk].
    apply lookup_lt_Some in Hk. rewrite length_drop in Hk. lia.
  - intros i Hi.
    pose proof (StronglySorted_app_1_elem_of newer _ _ i (getattr t "id")
                  Hsorted Hi Hin) as Hle.
    unfold newer in Hle.
    destruct (decide (getattr t "id" = i)) as [Heq|]; [|lia].
    exfalso. apply Hnpage. by rewrite Heq.
Qed.


End TimelineTTL.

Lemma coherent_empty now prefix : coherent now ∅ prefix.
Proof. intros i. unfold TTL.read. by rewrite lookup_empty. Qed.

(** X19.  Paging.  For a [Topic] class whose primary key is [id] and whose
    [get] prefix has no digit and no minus sign, with positive counts and a
    cache that is coherent at both calls: when a call returns a non-zero
    cursor, a call with that cursor returns only topics whose ids are below
    the id of every topic of the first page, so no topic comes twice.  The
    second call may see other rows of topics and cafes, another cache, another
    user and other followed cafes than the first. *)
Theorem timeline_next_page_older
    (STATUS_OFFICIAL STATUS_VERIFIED STATUS_OFFICIAL' STATUS_VERIFIED' : Z)
    (following following' : Z → gset Z)
    now now' m cafes cafes' cursor user_id user_id' count count'
    (s s' : TTL.store) topics topics' log log' page next page' next' :
  primary_key m = ["id"] →
  let prefix := generate_cache_prefix m "get" in
  (∀ a, a ∈ String.list_ascii_of_string "-0123456789" →
        a ∉ String.list_ascii_of_string prefix) →
  coherent now s prefix → coherent now' s' prefix →
  (0 < count)%nat → (0 < count')%nat →
  (get_timeline_topics STATUS_OFFICIAL STATUS_VERIFIED following
     now m cafes cursor user_id count (Session s topics log)).1
  = Page page next →
  next ≠ 0 →
  (get_timeline_topics STATUS_OFFICIAL' STATUS_VERIFIED' following'
     now' m cafes' (Some next) user_id' count' (Session s' topics' log')).1
  = Page page' next' →
  ∀ i j, i ∈ ids_of page → j ∈ ids_of page' → j < i.
Proof.
  intros Hpk prefix Hplain Hco Hco' Hcount Hcount' Hfirst Hnext Hsecond i j Hi Hj.
  destruct (get_timeline_topics_eval STATUS_OFFICIAL STATUS_VERIFIED following
              now m cafes cursor user_id count s topics
              log Hpk Hplain Hco Hcount) as [Hcall Hids].
  destruct (get_timeline_topics_eval STATUS_OFFICIAL' STATUS_VERIFIED' following'
              now' m cafes' (Some next) user_id' count'
              s' topics' log' Hpk Hplain Hco' Hcount') as [Hcall' Hids'].
  fold prefix in Hcall, Hids, Hcall', Hids'.
  rewrite Hcall in Hfirst. rewrite Hcall' in Hsecond.
  injection Hfirst as <- Hn. injection Hsecond as <- _.
  rewrite Hids in Hi. rewrite Hids' in Hj.
  apply select_topic_ids_elem in Hj as [_ Hlt].
  assert (j < next) as Hjn.
  { apply Hlt. cbn. by destruct (Z.eqb_spec next 0). }
  destruct (length _ <? count)%nat; [done|].
  match type of Hn with
  | default 0 (last ?l) = _ => destruct (last l) as [x|] eqn:Hlast
  end; [|done].
  cbn in Hn. subst x.
  pose proof (sorted_last_least _ next i
                (select_topic_ids_sorted _ _ _ _) Hlast Hi). lia.
Qed.

Lemma timeline_page_witness :
  let t (i c : Z) := Entity (λ k, if decide (k = "id") then i else c) in
  let m := Mapper "zq_topic" None ["id"] in
  let cafes := [t 1 1; t 2 1] in
  let topics := [t 5 1; t 7 2; t 6 3; t 9 1] in
  let cafe_ids := get_public_timeline_cafe_ids 1 2 cafes in
  ∃ page next,
    (get_timeline_topics 1 2 (λ _, ∅) 100 m cafes (Some 9) None 2
       (Session (∅ : TTL.store) topics [])).1
    = Page page next
    ∧ (length page ≤ 2)%nat
    ∧ StronglySorted newer (ids_of page)
    ∧ (∀ i, i ∈ ids_of page →
         (∃ x, x ∈ topics ∧ getattr x "id" = i ∧ getattr x "cafe_id" ∈ cafe_ids)
         ∧ (given (Some 9) = true → i < default 0 (Some 9)))
    ∧ (∀ x, x ∈ topics → getattr x "cafe_id" ∈ cafe_ids →
         (given (Some 9) = true → getattr x "id" < default 0 (Some 9)) →
         getattr x "id" ∈ ids_of page
         ∨ (length page = 2%nat ∧ ∀ i, i ∈ ids_of page → getattr x "id" < i))
    ∧ next = (if (length page <? 2)%nat then 0
              else default 0 (last (ids_of page))).
Proof.
  intros t m cafes topics cafe_ids.
  apply (timeline_page 1 2 (λ _, ∅) 100 m cafes (Some 9) None 2 ∅ topics []);
    [reflexivity | | apply coherent_empty | lia].
  apply Forall_forall. apply (bool_decide_unpack _). by vm_compute.
Defined.

Lemma timeline_next_page_older_witness :
  let t (i c : Z) := Entity (λ k, if decide (k = "id") then i else c) in
  Forall (λ i, Forall (λ j, j < i) (ids_of [PObj (t 6 1); PObj (t 5 1)]))
    (ids_of [PObj (t 9 1); PObj (t 7 2)]).
Proof.
  intros t.
  apply Forall_forall. intros i Hi. apply Forall_forall. intros j Hj.
  revert i j Hi Hj.
  apply (timeline_next_page_older 1 2 1 2 (λ _, ∅) (λ _, ∅) 100 100
           (Mapper "zq_topic" None ["id"]) [t 1 1; t 2 1] [t 1 1; t 2 1]
           None None None 2 2 ∅ ∅
           [t 5 1; t 7 2; t 6 1; t 9 1] [t 5 1; t 7 2; t 6 1; t 9 1]
           [] [] _ 7 _ 5);
    [reflexivity | | apply coherent_empty | apply coherent_empty | lia | lia
    | by vm_compute | lia | by vm_compute].
  apply Forall_forall. apply (bool_decide_unpack _). by vm_compute.
Defined.

(** X20.  A page of zero topics cannot be asked for: with [count = 0] the
    list of topics is empty and not shorter than [count], so [topics[-1]]
    raises [IndexError], for every cache backend. *)
Theorem timeline_zero_count {C : Type} `{!CacheBackend C}
    (STATUS_OFFICIAL STATUS_VERIFIED : Z) (following : Z → gset Z)
    now m cafes cursor user_id (w : session C) :
  get_timeline_topics STATUS_OFFICIAL STATUS_VERIFIED following
    now m cafes cursor user_id 0 w
  = (IndexError, w).
Proof. by destruct w. Qed.

(** ** [CafeForm.update_cafe] *)

Section CafeFormProps.
Variable PERMISSIONS : gmap string Z.

Lemma set_fields_cons data k keys c :
  set_fields data (k :: keys) c
  = set_fields data keys
      match data !! k with
      | Some value => if decide (value = EmptyString) then c
                      else cafe_setattr c k value
      | None => c
      end.
Proof. reflexivity. Qed.

Lemma slug_not_edited : "slug" ∉ ["name"; "content"].
Proof. apply (bool_decide_unpack _). by vm_compute. Qed.

Lemma set_fields_user_id data keys c :
  cafe_user_id (set_fields data keys c) = cafe_user_id c.
Proof.
  revert c. induction keys as [|k keys IH]; intros c; [done|].
  rewrite set_fields_cons, IH. destruct (data !! k) as [v|]; [|done].
  case_decide; [done|]. unfold cafe_setattr. by repeat case_decide.
Qed.

Lemma set_fields_slug data keys c :
  "slug" ∉ keys → cafe_slug (set_fields data keys c) = cafe_slug c.
Proof.
  revert c. induction keys as [|k keys IH]; intros c Hnin; [done|].
  apply not_elem_of_cons in Hnin as [Hne Hnin].
  rewrite set_fields_cons, IH by done. destruct (data !! k) as [v|]; [|done].
  case_decide; [done|]. unfold cafe_setattr.
  repeat case_decide; try done; by subst.
Qed.

(** X21.  Only the owner can change the slug: when [user_id] is not the
    owner of the cafe, the slug of the object is what it was after
    [update_cafe], whatever the form holds and whether the call returns or
    raises; and the owner of the cafe never changes. *)
Theorem update_cafe_slug_owner_only data permission user_id st :
  let after := (update_cafe PERMISSIONS data permission user_id st).2 in
  cafe_user_id (object after) = cafe_user_id (object st)
  ∧ (user_id ≠ cafe_user_id (object st) →
     cafe_slug (object after) = cafe_slug (object st)
     ∧ Forall (λ c, cafe_slug c = cafe_slug (object st))
         (drop (length (committed st)) (committed after))).
Proof.
  intros after. subst after. unfold update_cafe.
  destruct (PERMISSIONS !! permission) as [p|]; cbn.
  - split; [apply set_fields_user_id|]. intros Hne.
    rewrite decide_False by done.
    assert (cafe_slug (set_fields data ["name"; "content"] (object st))
            = cafe_slug (object st)) as Hslug.
    { apply set_fields_slug, slug_not_edited. }
    split; [done|]. rewrite drop_app_length. by repeat constructor.
  - split; [apply set_fields_user_id|]. intros Hne.
    rewrite decide_False by done.
    split; [apply set_fields_slug, slug_not_edited|].
    rewrite drop_all. constructor.
Qed.

(** X22.  An unknown permission choice: [update_cafe] raises [KeyError] on
    the choice and commits nothing, but has already written the submitted
    name and content (and slug, for the owner) to the cafe object. *)
Theorem update_cafe_unknown_permission data permission user_id st :
  PERMISSIONS !! permission = None →
  let keys :=
    if decide (user_id = cafe_user_id (object st))
    then ["name"; "slug"; "content"] else ["name"; "content"] in
  update_cafe PERMISSIONS data permission user_id st
  = (Raise (KeyError permission),
     CafeState (set_fields data keys (object st)) (committed st))
  ∧ ∀ value, data !! "name" = Some value → value ≠ EmptyString →
      cafe_name (set_fields data keys (object st)) = value.
Proof.
  intros Hperm keys. split.
  - unfold update_cafe. by rewrite Hperm.
  - intros value Hname Hne. subst keys.
    case_decide; rewrite !set_fields_cons, Hname, decide_False by done;
      cbn; repeat (destruct (data !! _) as [?|]; repeat case_decide; try done).
Qed.

(** X23.  An empty form changes nothing but the permission: when every
    submitted value is missing or empty, [update_cafe] keeps the name, the
    slug and the content of the cafe, sets the permission chosen and commits
    the cafe once. *)
Theorem update_cafe_empty_fields data permission p user_id st :
  PERMISSIONS !! permission = Some p →
  (∀ k value, data !! k = Some value → value = EmptyString) →
  let c := object st in
  let c' := Cafe (cafe_name c) (cafe_slug c) (cafe_content c) p (cafe_user_id c) in
  update_cafe PERMISSIONS data permission user_id st
  = (Ok c', CafeState c' (committed st ++ [c'])).
Proof.
  intros Hperm Hempty c c'.
  assert (∀ keys x, set_fields data keys x = x) as Hkeep.
  { intros keys. induction keys as [|k keys IH]; intros x; [done|].
    rewrite set_fields_cons. destruct (data !! k) as [v|] eqn:E; [|apply IH].
    rewrite (Hempty k v E). rewrite decide_True by done. apply IH. }
  unfold update_cafe. rewrite Hkeep, Hperm. done.
Qed.

End CafeFormProps.

Lemma update_cafe_slug_owner_only_witness :
  let c := Cafe "Tea" "tea" "about tea" 0 1 in
  let data : gmap string string :=
    <["name" := "Coffee"]> (<["slug" := "coffee"]> ∅) in
  let st := CafeState c [] in
  let after := (update_cafe {["public" := 0]} data "public" 2 st).2 in
  cafe_slug (object after) = cafe_slug (object st)
  ∧ Forall (λ c', cafe_slug c' = cafe_slug (object st))
      (drop (length (committed st)) (committed after)).
Proof.
  intros c data st after.
  apply (update_cafe_slug_owner_only {["public" := 0]} data "public" 2 st).
  cbn. lia.
Defined.

Lemma update_cafe_unknown_permission_witness :
  let c := Cafe "Tea" "tea" "about tea" 0 1 in
  let data : gmap string string := {["name" := "Coffee"]} in
  update_cafe {["public" := 0]} data "secret" 1 (CafeState c [])
  = (Raise (KeyError "secret"),
     CafeState (set_fields data ["name"; "slug"; "content"] c) [])
  ∧ ∀ value, data !! "name" = Some value → value ≠ EmptyString →
      cafe_name (set_fields data ["name"; "slug"; "content"] c) = value.
Proof.
  intros c data.
  apply (update_cafe_unknown_permission {["public" := 0]} data "secret" 1
           (CafeState c [])).
  reflexivity.
Defined.

Lemma update_cafe_empty_fields_witness :
  let c := Cafe "Tea" "tea" "about tea" 0 1 in
  let c' := Cafe "Tea" "tea" "about tea" 3 1 in
  update_cafe {["approve" := 3]} {["name" := EmptyString]} "approve" 1
    (CafeState c [])
  = (Ok c', CafeState c' ([] ++ [c'])).
Proof.
  intros c c'.
  apply (update_cafe_empty_fields {["approve" := 3]} {["name" := EmptyString]}
           "approve" 3 1 (CafeState c [])); [reflexivity|].
  intros k value Hk.
  destruct (decide (k = "name")) as [->|Hne].
  - rewrite lookup_singleton_eq in Hk. by injection Hk as <-.
  - by rewrite lookup_singleton_ne in Hk.
Defined.

